(** * rodis: hash (field-map) commands over the LevelDB storage layer

  A shallow embedding of [storage/hash.go] and of the hash command
  handlers ([hdel], [hexists], [hget], [hgetall], [hincrby],
  [hincrbyfloat], [hkeys], [hvals], [hlen], [hmget], [hmset], [hset],
  [hsetnx], [hstrlen]) of package [command].

  - Go [[]byte] and [string] values are [String.string] (a list of
    8-bit [ascii] bytes).
  - The LevelDB handle is a finite map from encoded keys to values
    ([gmap string string]); an iterator over a key prefix yields the
    matching entries in ascending byte order of their keys.
  - A Go [map[string][]byte] is a [gmap string string].
  - A handler takes the argument list and the database and returns the
    reply it writes to the buffer together with the database it leaves;
    [None] stands for a Go run-time panic (index out of range).
  - [int64] is [Z] with the wrap-around written out ([wrap64]).
  - The helpers of package [storage] that live in its other file ([Has],
    [ldb.get], [ldb.delete], [encodeMetaKey], [encodeMetadata], the
    namespace prefixes) and the type tags of package [resp] are modelled
    from the specification and marked so. *)

From Stdlib Require Import ZArith Ascii String List DecimalString DecimalPos.
From stdpp Require Import gmap strings list fin_maps sorting.

Local Open Scope string_scope.
Local Open Scope Z_scope.

(** ** Byte strings *)

Module Bytes.

(** [len(b)] *)
Definition len (b : string) : nat := String.length b.

(** [bytes.HasPrefix(b, prefix)], the test behind [util.BytesPrefix]. *)
Fixpoint HasPrefix (b prefix : string) {struct prefix} : bool :=
  match prefix, b with
  | EmptyString, _ => true
  | String p prefix', String c b' => Ascii.eqb p c && HasPrefix b' prefix'
  | String _ _, EmptyString => false
  end.

(** [strings.IndexByte(s, c)]: index of the first [c] in [s], or -1. *)
Fixpoint IndexByte (s : string) (c : ascii) : Z :=
  match s with
  | EmptyString => -1
  | String x s' =>
      if Ascii.eqb x c then 0
      else let i := IndexByte s' c in if i <? 0 then -1 else i + 1
  end.

(** The slice expression [b[n:]] for [0 <= n <= len(b)]. *)
Fixpoint slice_from (n : nat) (b : string) : string :=
  match n, b with
  | O, _ => b
  | S n', String _ b' => slice_from n' b'
  | S _, EmptyString => EmptyString
  end.

(** Byte-wise lexicographic order, the comparer of the store. *)
Definition le (a b : string) : Prop := String.leb a b = true.

#[export] Instance le_dec a b : Decision (le a b).
Proof. unfold le. apply _. Defined.

(** No byte of [s] is [c]: [strings.IndexByte] finds nothing. *)
Definition free_of (c : ascii) (s : string) : Prop := IndexByte s c = -1.

End Bytes.

(** ** strconv: base-10 signed 64-bit integers *)

Module Strconv.

Definition min_int64 : Z := - 2 ^ 63.
Definition max_int64 : Z := 2 ^ 63 - 1.

(** Two's complement wrap-around of an [int64] result. *)
Definition wrap64 (z : Z) : Z := (z + 2 ^ 63) mod 2 ^ 64 - 2 ^ 63.

Definition digit (c : ascii) : option Z :=
  let n := Z.of_N (N_of_ascii c) in
  if (48 <=? n) && (n <=? 57) then Some (n - 48) else None.

Fixpoint digits (s : string) (acc : Z) : option Z :=
  match s with
  | EmptyString => Some acc
  | String c s' =>
      match digit c with
      | Some d => digits s' (10 * acc + d)
      | None => None
      end
  end.

(** [strconv.ParseInt(s, 10, 64)]: an optional sign followed by one or
    more decimal digits, the value within the [int64] range; [None] is a
    non-nil [err] (syntax or range). *)
Definition ParseInt (s : string) : option Z :=
  match s with
  | EmptyString => None
  | String c rest =>
      let neg := Ascii.eqb c "-" in
      let body := if Ascii.eqb c "+" || neg then rest else s in
      match body with
      | EmptyString => None
      | _ =>
          match digits body 0 with
          | None => None
          | Some un =>
              if neg then (if un <=? 2 ^ 63 then Some (- un) else None)
              else (if un <? 2 ^ 63 then Some un else None)
          end
      end
  end.

(** [strconv.FormatInt(i, 10)]: the canonical decimal string. *)
Definition FormatInt (i : Z) : string := NilZero.string_of_int (Z.to_int i).

End Strconv.

(** ** Package storage *)

Module Storage.
Import Bytes.

(** The LevelDB database: encoded key to value. *)
Abbreviation Store := (gmap string string).

(** [type Field struct { Key []byte; Value []byte }] *)
Record Field := mkField { Key : string; Value : string }.

(** The value-namespace prefix. The constant is declared in the other
    file of the package; the comment of [encodeFieldKey] spells the
    layout: [-Key|Field]. *)
Definition ValuePrefix : ascii := "-".

(** The separator between record key and field name, declared in the
    other file of the package as well; [GetHashAsArray] and
    [GetFieldNames] search for the literal ['|']. *)
Definition Seperator : ascii := "|".

(** Modelled from the spec: the metadata-namespace prefix is declared in
    another file of the package; the two namespace prefixes are disjoint
    single bytes. Only [MetaPrefix <> ValuePrefix] is used below. *)
Definition MetaPrefix : ascii := "+".

(** Modelled from the spec: the type tags are constants of package [resp];
    a tag is one byte. Only the tag of the hash type is named by the
    handlers. *)
Definition NoneType : ascii := "000".
Definition Hash : ascii := "h".

(** Modelled from the spec: [encodeMetaKey] is prefix byte + key bytes. *)
Definition encodeMetaKey (key : string) : string := String MetaPrefix key.

(** Modelled from the spec: the metadata value is a single type tag. *)
Definition encodeMetadata (tipe : ascii) : string := String tipe EmptyString.

(** [encodeFieldKey] encodes a hash field key: [-Key|Field]. *)
Definition encodeFieldKey (key field : string) : string :=
  String ValuePrefix (key +:+ String Seperator field).

(** Modelled from the spec: [ldb.get] is the point lookup; a key with no
    stored entry yields the zero-length sentinel. *)
Definition ldb_get (db : Store) (key : string) : string :=
  default EmptyString (db !! key).

(** Modelled from the spec: [ldb.delete] removes the given keys in one
    atomic batch. *)
Definition ldb_delete (db : Store) (keys : list string) : Store :=
  foldl (fun acc k => delete k acc) db keys.

(** Modelled from the spec: [Has] returns (exists, type) by metadata
    lookup; absence of the metadata entry means the key does not exist. *)
Definition Has (db : Store) (key : string) : bool * ascii :=
  match db !! encodeMetaKey key with
  | None => (false, NoneType)
  | Some (String tipe _) => (true, tipe)
  | Some EmptyString => (true, NoneType)
  end.

Definition entry_le (a b : string * string) : Prop := Bytes.le a.1 b.1.

#[export] Instance entry_le_dec a b : Decision (entry_le a b).
Proof. unfold entry_le. apply _. Defined.

(** [ldb.db.NewIterator(util.BytesPrefix(prefix), nil)] run to its end:
    the entries whose key starts with [prefix], in key order. *)
Definition Iterator (db : Store) (prefix : string) : list (string * string) :=
  merge_sort entry_le
    (filter (fun e => HasPrefix e.1 prefix = true) (map_to_list db)).

(** The field name of an iterator key: the bytes after the first ['|']. *)
Definition fieldOf (iterKey : string) : string :=
  let sepIndex := IndexByte iterKey Seperator in
  slice_from (Z.to_nat (sepIndex + 1)) iterKey.

(** [DeleteHash]: the metadata key and every key of the prefix scan,
    deleted in one batch. *)
Definition DeleteHash (db : Store) (key : string) : Store :=
  let keys :=
    ([encodeMetaKey key] ++
     ((fun e => e.1) <$> Iterator db (encodeFieldKey key EmptyString)))%list in
  ldb_delete db keys.

(** [PutHash]: one batch holding the metadata entry and one entry per
    item of [hash]. *)
Definition PutHash (db : Store) (key : string) (tipe : ascii)
    (hash : gmap string string) : Store :=
  map_fold (fun k v batch => <[encodeFieldKey key k := v]> batch)
    (<[encodeMetaKey key := encodeMetadata tipe]> db) hash.

(** [GetHash] *)
Definition GetHash (db : Store) (key : string) : gmap string string :=
  foldl (fun hash e => <[fieldOf e.1 := e.2]> hash) ∅
    (Iterator db (encodeFieldKey key EmptyString)).

(** [GetHashAsArray] *)
Definition GetHashAsArray (db : Store) (key : string) : list Field :=
  (fun e => mkField (fieldOf e.1) e.2) <$>
    Iterator db (encodeFieldKey key EmptyString).

(** [DeleteFields]: delete the field entries, then drop the metadata
    entry when a fresh prefix scan finds no field. *)
Definition DeleteFields (db : Store) (key : string) (fields : list string)
    : Store :=
  let keys := encodeFieldKey key <$> fields in
  let db1 := ldb_delete db keys in
  match Iterator db1 (encodeFieldKey key EmptyString) with
  | [] => ldb_delete db1 [encodeMetaKey key]
  | _ :: _ => db1
  end.

(** [GetFields] *)
Definition GetFields (db : Store) (key : string) (fields : list string)
    : gmap string string :=
  foldl (fun hash field => <[field := ldb_get db (encodeFieldKey key field)]> hash)
    ∅ fields.

(** [GetFieldNames] *)
Definition GetFieldNames (db : Store) (key : string) : list string :=
  (fun e => fieldOf e.1) <$> Iterator db (encodeFieldKey key EmptyString).

(** [GetFieldsAsArray] *)
Definition GetFieldsAsArray (db : Store) (key : string) (fields : list string)
    : list Field :=
  (fun field => mkField field (ldb_get db (encodeFieldKey key field))) <$> fields.

End Storage.

(** ** Package resp: reply objects *)

Module Resp.

(** The error kinds of the handlers; [ErrFmtWrongNumberArgument] carries
    the command name it is formatted with. *)
Inductive Error :=
| ErrFmtWrongNumberArgument (cmd : string)
| ErrWrongType
| ErrNotValidInt
| ErrNotValidFloat.

#[warnings="-register-all"]
Inductive Reply :=
| Integer (n : Z)
| NilBulkString
| BulkString (b : string)
| Array (items : list Reply)
| OkSimpleString
| NewError (e : Error).

Definition ZeroInteger : Reply := Integer 0.
Definition OneInteger : Reply := Integer 1.
Definition EmptyArray : Reply := Array [].

End Resp.

(** ** Package command: the hash handlers *)

Module Command.
Import Bytes Strconv Storage Resp.

(** [type Args [][]byte] *)
Abbreviation Args := (list string).

(** What a handler leaves behind: the reply written to [ex.Buffer] and the
    database; [None] is a run-time panic. *)
Abbreviation Outcome := (option (Reply * Store)).

(** [keyExists && tipe != resp.Hash] *)
Definition wrongType (h : bool * ascii) : bool :=
  h.1 && negb (Ascii.eqb h.2 Hash).

(** [hdel] *)
Definition hdel (v : Args) (db : Store) : Outcome :=
  if (length v <? 2)%nat then
    Some (NewError (ErrFmtWrongNumberArgument "hdel"), db)
  else
    v0 ← v !! 0%nat;
    let h := Has db v0 in
    if negb h.1 then Some (ZeroInteger, db)
    else if wrongType h then Some (NewError ErrWrongType, db)
    else
      let fields := drop 1 v in
      let hash := GetFields db v0 fields in
      let count :=
        map_fold (fun _ value n => if (len value =? 0)%nat then n else S n)
          0%nat hash in
      Some (Integer (Z.of_nat count), DeleteFields db v0 fields).

(** [hexists] *)
Definition hexists (v : Args) (db : Store) : Outcome :=
  v0 ← v !! 0%nat;
  let h := Has db v0 in
  if wrongType h then Some (NewError ErrWrongType, db)
  else
    v1 ← v !! 1%nat;
    let hash := GetFields db v0 [v1] in
    if (len (default EmptyString (hash !! v1)) =? 0)%nat
    then Some (ZeroInteger, db)
    else Some (OneInteger, db).

(** [hget] *)
Definition hget (v : Args) (db : Store) : Outcome :=
  v0 ← v !! 0%nat;
  let h := Has db v0 in
  if negb h.1 then Some (NilBulkString, db)
  else if wrongType h then Some (NewError ErrWrongType, db)
  else
    v1 ← v !! 1%nat;
    let hash := GetFields db v0 [v1] in
    if (len (default EmptyString (hash !! v1)) =? 0)%nat
    then Some (NilBulkString, db)
    else Some (BulkString (default EmptyString (hash !! v1)), db).

(** [hgetall] *)
Definition hgetall (v : Args) (db : Store) : Outcome :=
  v0 ← v !! 0%nat;
  let h := Has db v0 in
  if negb h.1 then Some (EmptyArray, db)
  else if wrongType h then Some (NewError ErrWrongType, db)
  else
    let hash := GetHashAsArray db v0 in
    let arr :=
      foldl (fun arr field => (arr ++ [BulkString (Key field); BulkString (Value field)])%list)
        [] hash in
    Some (Array arr, db).

(** [hincrby] *)
Definition hincrby (v : Args) (db : Store) : Outcome :=
  v2 ← v !! 2%nat;
  match ParseInt v2 with
  | None => Some (NewError ErrNotValidInt, db)
  | Some by_ =>
      v0 ← v !! 0%nat;
      let h := Has db v0 in
      if wrongType h then Some (NewError ErrWrongType, db)
      else
        v1 ← v !! 1%nat;
        let hash := GetFields db v0 [v1] in
        let cur := default EmptyString (hash !! v1) in
        let store newVal :=
          let hash' := <[v1 := FormatInt newVal]> hash in
          Some (Integer newVal, PutHash db v0 Hash hash') in
        if (len cur =? 0)%nat then store (wrap64 (0 + by_))
        else
          match ParseInt cur with
          | None => Some (NewError ErrNotValidInt, db)
          | Some i => store (wrap64 (i + by_))
          end
  end.

(** [hkeys] *)
Definition hkeys (v : Args) (db : Store) : Outcome :=
  v0 ← v !! 0%nat;
  let h := Has db v0 in
  if negb h.1 then Some (EmptyArray, db)
  else if wrongType h then Some (NewError ErrWrongType, db)
  else
    let fields := GetFieldNames db v0 in
    let arr := foldl (fun arr field => (arr ++ [BulkString field])%list) [] fields in
    Some (Array arr, db).

(** [hvals] *)
Definition hvals (v : Args) (db : Store) : Outcome :=
  v0 ← v !! 0%nat;
  let h := Has db v0 in
  if negb h.1 then Some (EmptyArray, db)
  else if wrongType h then Some (NewError ErrWrongType, db)
  else
    let hash := GetHashAsArray db v0 in
    let arr := foldl (fun arr field => (arr ++ [BulkString (Value field)])%list) [] hash in
    Some (Array arr, db).

(** [hlen] *)
Definition hlen (v : Args) (db : Store) : Outcome :=
  v0 ← v !! 0%nat;
  let h := Has db v0 in
  if negb h.1 then Some (ZeroInteger, db)
  else if wrongType h then Some (NewError ErrWrongType, db)
  else
    let fields := GetFieldNames db v0 in
    Some (Integer (Z.of_nat (length fields)), db).

(** [hmget] *)
Definition hmget (v : Args) (db : Store) : Outcome :=
  if (length v <? 2)%nat then
    Some (NewError (ErrFmtWrongNumberArgument "hmget"), db)
  else
    v0 ← v !! 0%nat;
    let h := Has db v0 in
    if wrongType h then Some (NewError ErrWrongType, db)
    else
      let fields := drop 1 v in
      let hash := GetFieldsAsArray db v0 fields in
      let arr :=
        foldl (fun arr field =>
                 if (len (Value field) =? 0)%nat then (arr ++ [NilBulkString])%list
                 else (arr ++ [BulkString (Value field)])%list)
          [] hash in
      Some (Array arr, db).

(** The loop of [hmset] over the arguments after the key: [hash[v[i]] =
    v[i+1]; i += 2]. A dangling last argument would index past the end. *)
Fixpoint hmset_pairs (rest : list string) (hash : gmap string string)
    : option (gmap string string) :=
  match rest with
  | [] => Some hash
  | f :: x :: rest' => hmset_pairs rest' (<[f := x]> hash)
  | [_] => None
  end.

(** [hmset] *)
Definition hmset (v : Args) (db : Store) : Outcome :=
  if (length v <=? 1)%nat || negb (length v mod 2 =? 1)%nat then
    Some (NewError (ErrFmtWrongNumberArgument "hmset"), db)
  else
    v0 ← v !! 0%nat;
    let h := Has db v0 in
    if wrongType h then Some (NewError ErrWrongType, db)
    else
      hash ← hmset_pairs (drop 1 v) ∅;
      Some (OkSimpleString, PutHash db v0 Hash hash).

(** [hset] *)
Definition hset (v : Args) (db : Store) : Outcome :=
  v0 ← v !! 0%nat;
  let h := Has db v0 in
  if wrongType h then Some (NewError ErrWrongType, db)
  else
    v1 ← v !! 1%nat;
    let hash := GetFields db v0 [v1] in
    let fieldExists := negb (len (default EmptyString (hash !! v1)) =? 0)%nat in
    v2 ← v !! 2%nat;
    let hash' := <[v1 := v2]> hash in
    let db' := PutHash db v0 Hash hash' in
    if negb fieldExists then Some (OneInteger, db') else Some (ZeroInteger, db').

(** [hsetnx] *)
Definition hsetnx (v : Args) (db : Store) : Outcome :=
  v0 ← v !! 0%nat;
  let h := Has db v0 in
  if wrongType h then Some (NewError ErrWrongType, db)
  else
    v1 ← v !! 1%nat;
    let hash := GetFields db v0 [v1] in
    let fieldExists := negb (len (default EmptyString (hash !! v1)) =? 0)%nat in
    if negb fieldExists then
      v2 ← v !! 2%nat;
      let hash' := <[v1 := v2]> hash in
      Some (OneInteger, PutHash db v0 Hash hash')
    else Some (ZeroInteger, db).

(** [hstrlen] *)
Definition hstrlen (v : Args) (db : Store) : Outcome :=
  v0 ← v !! 0%nat;
  let h := Has db v0 in
  if negb h.1 then Some (ZeroInteger, db)
  else if wrongType h then Some (NewError ErrWrongType, db)
  else
    v1 ← v !! 1%nat;
    let hash := GetFields db v0 [v1] in
    Some (Integer (Z.of_nat (len (default EmptyString (hash !! v1)))), db).

(** *** [hincrbyfloat], over the float64 operations of strconv

    The IEEE-754 arithmetic and the parsing and shortest-decimal printing
    of [strconv] are taken as they are: a type of floats with its parser,
    its addition and its printer. *)
Section Float.
Variable float64 : Type.
Variable ParseFloat : string -> option float64.
Variable fadd : float64 -> float64 -> float64.
Variable fzero : float64.
Variable FormatFloat : float64 -> string.

(** [hincrbyfloat] *)
Definition hincrbyfloat (v : Args) (db : Store) : Outcome :=
  v2 ← v !! 2%nat;
  match ParseFloat v2 with
  | None => Some (NewError ErrNotValidInt, db)
  | Some by_ =>
      v0 ← v !! 0%nat;
      let h := Has db v0 in
      if wrongType h then Some (NewError ErrWrongType, db)
      else
        v1 ← v !! 1%nat;
        let hash := GetFields db v0 [v1] in
        let cur := default EmptyString (hash !! v1) in
        let store newVal :=
          let hash' := <[v1 := FormatFloat newVal]> hash in
          Some (BulkString (default EmptyString (hash' !! v1)),
                PutHash db v0 Hash hash') in
        if (len cur =? 0)%nat then store (fadd fzero by_)
        else
          match ParseFloat cur with
          | None => Some (NewError ErrNotValidFloat, db)
          | Some f => store (fadd f by_)
          end
  end.

(** The handlers of the file by command name. *)
Inductive Cmd :=
| HDEL | HEXISTS | HGET | HGETALL | HINCRBY | HINCRBYFLOAT | HKEYS | HLEN
| HMGET | HMSET | HSET | HSETNX | HSTRLEN | HVALS.

Definition handler (c : Cmd) : Args -> Store -> Outcome :=
  match c with
  | HDEL => hdel
  | HEXISTS => hexists
  | HGET => hget
  | HGETALL => hgetall
  | HINCRBY => hincrby
  | HINCRBYFLOAT => hincrbyfloat
  | HKEYS => hkeys
  | HLEN => hlen
  | HMGET => hmget
  | HMSET => hmset
  | HSET => hset
  | HSETNX => hsetnx
  | HSTRLEN => hstrlen
  | HVALS => hvals
  end.

(** The checks a handler makes on its arguments before it looks at the
    type of the key: the count for the variadic handlers, the parse of the
    increment for the two increment handlers. *)
Definition argsChecked (c : Cmd) (v : Args) : bool :=
  match c with
  | HDEL | HMGET => (2 <=? length v)%nat
  | HMSET => (1 <? length v)%nat && (length v mod 2 =? 1)%nat
  | HINCRBY => bool_decide (is_Some (v !! 2%nat ≫= ParseInt))
  | HINCRBYFLOAT => bool_decide (is_Some (v !! 2%nat ≫= ParseFloat))
  | _ => true
  end.

(** The highest argument position a handler indexes, plus one. *)
Definition indexed (c : Cmd) : nat :=
  match c with
  | HGETALL | HKEYS | HLEN | HVALS => 1
  | HEXISTS | HGET | HSTRLEN => 2
  | HINCRBY | HINCRBYFLOAT | HSET | HSETNX => 3
  | HDEL | HMGET | HMSET => 0
  end.

End Float.

End Command.

(** ** Notions used by the statements *)

Module Notions.
Import Bytes Strconv Storage Resp Command.

(** The record key holds no separator byte. *)
Definition sepFree (key : string) : Prop := free_of Seperator key.

(** [Has] reports the key as existing with the hash type. *)
Definition isHash (db : Store) (key : string) : Prop :=
  Has db key = (true, Hash).

(** [Has] reports the key as absent. *)
Definition absent (db : Store) (key : string) : Prop := (Has db key).1 = false.

(** The store holds at least one field entry of the key. *)
Definition hasField (db : Store) (key : string) : Prop :=
  exists field, is_Some (db !! encodeFieldKey key field).

(** Metadata and field entries agree on every separator-free key. *)
Definition metaConsistent (db : Store) : Prop :=
  forall key, sepFree key -> isHash db key <-> hasField db key.

(** Metadata and field entries agree on every key. *)
Definition metaConsistentAll (db : Store) : Prop :=
  forall key, isHash db key <-> hasField db key.

(** The arguments of a multi-set after the key: field, value, ... *)
Fixpoint flatten (pairs : list (string * string)) : list string :=
  match pairs with
  | [] => []
  | (f, x) :: pairs' => f :: x :: flatten pairs'
  end.

(** The field set a sequence of pairs denotes: a later pair replaces an
    earlier one of the same field. *)
Definition fieldSet (pairs : list (string * string)) : gmap string string :=
  foldl (fun m p => <[p.1 := p.2]> m) ∅ pairs.

(** A client session: the handlers run one after the other on the
    database the previous one left; the replies in order. *)
Fixpoint session (cmds : list (Store -> Outcome)) (db : Store)
    : option (list Reply * Store) :=
  match cmds with
  | [] => Some ([], db)
  | c :: cmds' =>
      match c db with
      | None => None
      | Some (r, db1) =>
          match session cmds' db1 with
          | None => None
          | Some (rs, db2) => Some (r :: rs, db2)
          end
      end
  end.

(** The flat field/value reply of [hgetall]. *)
Definition flatReply (fields : list Field) : list Reply :=
  flat_map (fun fd => [BulkString (Key fd); BulkString (Value fd)]) fields.

(** The handlers that take the read lock ([ex.DB.RLock]). *)
Definition readLocked (c : Cmd) : bool :=
  match c with
  | HEXISTS | HGET | HGETALL | HKEYS | HLEN | HMGET | HSTRLEN | HVALS => true
  | HDEL | HINCRBY | HINCRBYFLOAT | HMSET | HSET | HSETNX => false
  end.

(** The reply item of [hmget] for a looked-up value. *)
Definition bulkOrNil (value : string) : Reply :=
  if (len value =? 0)%nat then NilBulkString else BulkString value.

(** The value a field reads as after a multi-set of [pairs]. *)
Definition readsAfter (db : Store) (key : string)
    (pairs : list (string * string)) (field : string) : string :=
  match fieldSet pairs !! field with
  | Some x => x
  | None => ldb_get db (encodeFieldKey key field)
  end.

(** The requested fields, each once, that hold a non-empty value: what
    [hdel] counts. *)
Definition nonEmptyFields (db : Store) (key : string) (fields : list string)
    : list string :=
  filter (fun f => ldb_get db (encodeFieldKey key f) <> EmptyString)
    (remove_dups fields).

End Notions.

(** * Properties *)

(** ** Byte-string facts *)

Module BytesFacts.
Import Bytes.

Lemma append_String (c : ascii) (s r : string) :
  String c s +:+ r = String c (s +:+ r).
Proof. reflexivity. Qed.

Lemma append_Empty (r : string) : EmptyString +:+ r = r.
Proof. reflexivity. Qed.

Lemma append_inj_l (k a b : string) : k +:+ a = k +:+ b -> a = b.
Proof.
  induction k as [|c k IH]; [done|].
  rewrite !append_String. intros [= H]. auto.
Qed.

Lemma HasPrefix_spec (b p : string) :
  HasPrefix b p = true <-> exists r, b = p +:+ r.
Proof.
  revert b. induction p as [|c p IH]; intros b; simpl.
  - split; [intros _; by exists b | done].
  - destruct b as [|x b].
    + split; [done|]. intros [r [=]].
    + rewrite andb_true_iff, IH. split.
      * intros [Hc [r ->]]. apply Ascii.eqb_eq in Hc as ->. eauto.
      * intros [r [= -> ->]]. split; [apply Ascii.eqb_refl|eauto].
Qed.

Lemma IndexByte_lower (s : string) (c : ascii) : -1 <= IndexByte s c.
Proof.
  induction s as [|x s IH]; simpl; [lia|].
  destruct (Ascii.eqb x c); [lia|].
  destruct (Z.ltb_spec (IndexByte s c) 0); lia.
Qed.

Lemma free_of_String c x s : free_of c (String x s) <-> x <> c /\ free_of c s.
Proof.
  unfold free_of. simpl. pose proof (IndexByte_lower s c).
  destruct (Ascii.eqb_spec x c) as [->|Hne].
  - split; [lia|]. intros [Hc _]. by destruct Hc.
  - destruct (Z.ltb_spec (IndexByte s c) 0);
      (split; [intros ?; split; [done|lia] | intros [_ ?]; lia]).
Qed.

Lemma IndexByte_append (c : ascii) (k r : string) :
  free_of c k -> IndexByte (k +:+ String c r) c = Z.of_nat (String.length k).
Proof.
  induction k as [|x k IH]; simpl.
  - intros _. by rewrite Ascii.eqb_refl.
  - intros [Hne Hk]%free_of_String. specialize (IH Hk).
    destruct (Ascii.eqb_spec x c); [done|]. rewrite IH.
    destruct (Z.ltb_spec (Z.of_nat (String.length k)) 0); lia.
Qed.

Lemma slice_from_append (k r : string) :
  slice_from (String.length k) (k +:+ r) = r.
Proof. induction k; simpl; auto. Qed.

Lemma append_sep_inj (c : ascii) (k k' a b : string) :
  free_of c k -> free_of c k' ->
  k +:+ String c a = k' +:+ String c b -> k = k' /\ a = b.
Proof.
  revert k'. induction k as [|x k IH]; intros [|x' k']; simpl.
  - by intros _ _ [= ->].
  - intros _ [Hne _]%free_of_String [= -> _]. done.
  - intros [Hne _]%free_of_String _ [= -> _]. done.
  - intros [_ Hk]%free_of_String [_ Hk']%free_of_String [= -> H].
    destruct (IH _ Hk Hk' H) as [-> ->]. done.
Qed.

End BytesFacts.

(** ** strconv: printing and parsing agree *)

Module StrconvFacts.
Import Strconv.


Lemma wrap64_small (z : Z) :
  min_int64 <= z <= max_int64 -> wrap64 z = z.
Proof.
  unfold min_int64, max_int64, wrap64. intros H.
  rewrite Z.mod_small; lia.
Qed.

Lemma digits_of_uint_acc (u : Decimal.uint) (acc : positive) :
  digits (NilEmpty.string_of_uint u) (Z.pos acc) =
  Some (Z.pos (Pos.of_uint_acc u acc)).
Proof.
  revert acc. induction u as [|u IH|u IH|u IH|u IH|u IH|u IH|u IH|u IH|u IH|u IH];
    intros acc; [reflexivity|..];
    cbn [NilEmpty.string_of_uint digits Pos.of_uint_acc];
    match goal with
    | |- context [digit ?c] => change (digit c) with (Some (Z.of_N (N_of_ascii c) - 48))
    end;
    cbn [N_of_ascii N_of_digits]; rewrite <- IH; f_equal; lia.
Qed.

Lemma digits_of_uint (u : Decimal.uint) :
  digits (NilEmpty.string_of_uint u) 0 = Some (Z.of_N (Pos.of_uint u)).
Proof.
  induction u as [|u IH|u IH|u IH|u IH|u IH|u IH|u IH|u IH|u IH|u IH];
    [reflexivity|exact IH|..];
    cbn [NilEmpty.string_of_uint digits Pos.of_uint];
    match goal with
    | |- context [digit ?c] => change (digit c) with (Some (Z.of_N (N_of_ascii c) - 48))
    end;
    apply digits_of_uint_acc.
Qed.

Lemma string_of_uint_head (u : Decimal.uint) :
  u <> Decimal.Nil ->
  exists c rest,
    NilZero.string_of_uint u = String c rest /\
    NilEmpty.string_of_uint u = String c rest /\
    Ascii.eqb c "-" = false /\ Ascii.eqb c "+" = false.
Proof. destruct u; [done|..]; intros _; eexists _, _; repeat split. Qed.

(** The decimal string [FormatInt] prints parses back to the integer. *)
Lemma ParseInt_FormatInt (z : Z) :
  min_int64 <= z <= max_int64 -> ParseInt (FormatInt z) = Some z.
Proof.
  unfold min_int64, max_int64. intros Hz. destruct z as [|p|p]; [reflexivity|..];
    unfold FormatInt; cbn [Z.to_int NilZero.string_of_int];
    destruct (string_of_uint_head (Pos.to_uint p))
      as (c & rest & E0 & E & Hm & Hp); try apply DecimalPos.Unsigned.to_uint_nonnil;
    pose proof (digits_of_uint (Pos.to_uint p)) as Hd;
    rewrite DecimalPos.Unsigned.of_to, E in Hd; rewrite E0; unfold ParseInt.
  - rewrite Hm, Hp. cbn [orb]. rewrite Hd.
    destruct (Z.ltb_spec (Z.of_N (N.pos p)) (2 ^ 63)); [done|lia].
  - rewrite Ascii.eqb_refl. cbn [orb]. replace (("-" =? "+")%char || true) with true by done.
    rewrite Hd. destruct (Z.leb_spec (Z.of_N (N.pos p)) (2 ^ 63)); [done|lia].
Qed.

End StrconvFacts.

(** ** The key encoding and the storage operations *)

Module StorageFacts.
Import Bytes BytesFacts Storage Notions.

Lemma meta_ne_field (k k' f : string) : encodeMetaKey k <> encodeFieldKey k' f.
Proof. unfold encodeMetaKey, encodeFieldKey. intros [= H _]. Qed.

#[export] Instance encodeMetaKey_inj : Inj (=) (=) encodeMetaKey.
Proof. intros k k' [= ->]. done. Qed.

#[export] Instance encodeFieldKey_inj (k : string) : Inj (=) (=) (encodeFieldKey k).
Proof.
  intros f f'. unfold encodeFieldKey. intros [= H].
  apply append_inj_l in H. by injection H.
Qed.

Lemma encodeFieldKey_sep_inj (k k' f f' : string) :
  sepFree k -> sepFree k' ->
  encodeFieldKey k f = encodeFieldKey k' f' -> k = k' /\ f = f'.
Proof.
  unfold sepFree, encodeFieldKey. intros Hk Hk' [= H].
  eapply append_sep_inj; eauto.
Qed.

Lemma append_assoc_sep (k r : string) (c : ascii) :
  (k +:+ String c EmptyString) +:+ r = k +:+ String c r.
Proof.
  induction k as [|x k IH]; [done|]. rewrite !append_String. by f_equal.
Qed.

Lemma HasPrefix_field (k x : string) :
  HasPrefix x (encodeFieldKey k EmptyString) = true <->
  exists f, x = encodeFieldKey k f.
Proof.
  rewrite HasPrefix_spec. unfold encodeFieldKey.
  split; intros [r ->]; exists r; rewrite ?append_String; f_equal;
    [|symmetry]; apply append_assoc_sep.
Qed.

Lemma slice_from_sep (k f : string) (c : ascii) :
  slice_from (S (String.length k)) (k +:+ String c f) = f.
Proof. induction k; rewrite ?append_String; simpl; auto. Qed.

Lemma fieldOf_encode (k f : string) :
  sepFree k -> fieldOf (encodeFieldKey k f) = f.
Proof.
  intros Hk. unfold fieldOf, encodeFieldKey.
  change (IndexByte (String ValuePrefix (k +:+ String Seperator f)) Seperator)
    with (let i := IndexByte (k +:+ String Seperator f) Seperator in
          if i <? 0 then -1 else i + 1).
  rewrite IndexByte_append by done. simpl.
  destruct (Z.ltb_spec (Z.of_nat (String.length k)) 0); [lia|].
  replace (Z.to_nat (Z.of_nat (String.length k) + 1 + 1))
    with (S (S (String.length k))) by lia.
  simpl. apply slice_from_sep.
Qed.

Lemma lookup_ldb_delete (db : Store) (keys : list string) (x : string) :
  ldb_delete db keys !! x = if decide (x ∈ keys) then None else db !! x.
Proof.
  unfold ldb_delete. revert db.
  induction keys as [|k keys IH]; intros db; cbn [foldl].
  - case_decide as H; [by apply elem_of_nil in H|done].
  - rewrite IH. destruct (decide (x ∈ keys)) as [Hin|Hnin].
    + rewrite decide_True; [done|]. by apply elem_of_cons; right.
    + destruct (decide (k = x)) as [->|Hne].
      * rewrite lookup_delete_eq, decide_True; [done|]. by apply elem_of_cons; left.
      * rewrite lookup_delete_ne by done. rewrite decide_False; [done|].
        intros [->|?]%elem_of_cons; done.
Qed.

Lemma elem_of_Iterator (db : Store) (p x y : string) :
  (x, y) ∈ Iterator db p <-> db !! x = Some y /\ HasPrefix x p = true.
Proof.
  unfold Iterator. rewrite merge_sort_Permutation, list_elem_of_filter.
  rewrite elem_of_map_to_list. simpl. tauto.
Qed.

Lemma Iterator_nil (db : Store) (p : string) :
  Iterator db p = [] <-> forall x, HasPrefix x p = true -> db !! x = None.
Proof.
  split.
  - intros Hnil x Hx. destruct (db !! x) as [y|] eqn:E; [|done].
    assert ((x, y) ∈ Iterator db p) as Hin by (by apply elem_of_Iterator).
    rewrite Hnil in Hin. by apply elem_of_nil in Hin.
  - intros Hnone. destruct (Iterator db p) as [|[x y] l] eqn:E; [done|].
    assert ((x, y) ∈ Iterator db p) as Hin by (rewrite E; left).
    apply elem_of_Iterator in Hin as [Hx Hp]. rewrite Hnone in Hx; done.
Qed.

Lemma NoDup_Iterator (db : Store) (p : string) : NoDup (Iterator db p).
Proof.
  unfold Iterator. rewrite merge_sort_Permutation.
  apply NoDup_filter, NoDup_map_to_list.
Qed.

Lemma Iterator_Sorted (db : Store) (p : string) :
  Sorted entry_le (Iterator db p).
Proof.
  apply Sorted_merge_sort. intros a b. apply String.leb_total.
Qed.

Lemma Iterator_functional (db : Store) (p x y y' : string) :
  (x, y) ∈ Iterator db p -> (x, y') ∈ Iterator db p -> y = y'.
Proof. rewrite !elem_of_Iterator. intros [H _] [H' _]. congruence. Qed.

Lemma Iterator_nil_hasField (db : Store) (k : string) :
  Iterator db (encodeFieldKey k EmptyString) = [] <-> ~ hasField db k.
Proof.
  rewrite Iterator_nil. unfold hasField. split.
  - intros H [f [y Hf]]. rewrite H in Hf; [done|]. apply HasPrefix_field; eauto.
  - intros H x [f ->]%HasPrefix_field.
    destruct (db !! encodeFieldKey k f) eqn:E; [|done].
    destruct H. exists f. by rewrite E.
Qed.

(** [DeleteHash] leaves neither metadata nor field entry of the key. *)
Lemma DeleteHash_clears (db : Store) (k : string) :
  absent (DeleteHash db k) k /\ ~ hasField (DeleteHash db k) k.
Proof.
  unfold DeleteHash. split.
  - unfold absent, Has. rewrite lookup_ldb_delete, decide_True; [done|].
    apply elem_of_app. left. by apply list_elem_of_singleton.
  - intros [f [y Hf]]. rewrite lookup_ldb_delete in Hf.
    case_decide as Hd; [by inversion Hf|]. destruct Hd.
    apply elem_of_app. right. apply list_elem_of_fmap.
    exists (encodeFieldKey k f, y). split; [done|].
    apply elem_of_Iterator. split; [done|]. apply HasPrefix_field. eauto.
Qed.

(** [PutHash] as one map union: the batch over the store. *)
Lemma PutHash_union (db : Store) (k : string) (t : ascii) (hash : gmap string string) :
  PutHash db k t hash =
  kmap (encodeFieldKey k) hash ∪ <[encodeMetaKey k := encodeMetadata t]> db.
Proof.
  unfold PutHash.
  apply (map_fold_weak_ind (fun (r : Store) (m : gmap string string) =>
    r = kmap (encodeFieldKey k) m ∪ <[encodeMetaKey k := encodeMetadata t]> db)).
  - rewrite kmap_empty. symmetry. apply (left_id ∅ (∪)).
  - intros f x m r _ ->. rewrite kmap_insert, insert_union_l; [done|apply _].
Qed.

Lemma lookup_PutHash_meta (db : Store) k t hash :
  PutHash db k t hash !! encodeMetaKey k = Some (encodeMetadata t).
Proof.
  rewrite PutHash_union, lookup_union_r.
  - apply lookup_insert_eq.
  - apply lookup_kmap_None; [apply _|]. intros f Hf.
    by apply meta_ne_field in Hf.
Qed.

Lemma lookup_PutHash_field (db : Store) k t hash f :
  PutHash db k t hash !! encodeFieldKey k f =
  match hash !! f with
  | Some x => Some x
  | None => db !! encodeFieldKey k f
  end.
Proof.
  rewrite PutHash_union, lookup_union, lookup_kmap; [|apply _].
  rewrite lookup_insert_ne by apply meta_ne_field.
  destruct (hash !! f), (db !! encodeFieldKey k f); done.
Qed.

Lemma lookup_PutHash_other (db : Store) k t hash x :
  x <> encodeMetaKey k ->
  (forall f, is_Some (hash !! f) -> x <> encodeFieldKey k f) ->
  PutHash db k t hash !! x = db !! x.
Proof.
  intros Hm Hf. rewrite PutHash_union, lookup_union_r.
  - by rewrite lookup_insert_ne.
  - apply lookup_kmap_None; [apply _|]. intros f -> .
    destruct (hash !! f) eqn:E; [|done]. destruct (Hf f); [by rewrite E|done].
Qed.

Lemma PutHash_singleton (db : Store) k t f x :
  PutHash db k t {[f := x]} =
  <[encodeFieldKey k f := x]> (<[encodeMetaKey k := encodeMetadata t]> db).
Proof. unfold PutHash. by rewrite map_fold_singleton. Qed.

Lemma GetFields_one (db : Store) k f :
  GetFields db k [f] = {[f := ldb_get db (encodeFieldKey k f)]}.
Proof. unfold GetFields. simpl. by rewrite insert_empty. Qed.

Lemma Has_PutHash (db : Store) k t hash : Has (PutHash db k t hash) k = (true, t).
Proof. unfold Has. by rewrite lookup_PutHash_meta. Qed.

Lemma Has_PutHash_ne (db : Store) k k' t hash :
  k <> k' -> Has (PutHash db k t hash) k' = Has db k'.
Proof.
  intros Hne. unfold Has. rewrite lookup_PutHash_other; [done|..].
  - intros H. by apply (inj _) in H.
  - intros f _. apply meta_ne_field.
Qed.

End StorageFacts.

(** ** The handlers *)

Module HandlerFacts.
Import Bytes Strconv BytesFacts Storage Resp Command Notions StorageFacts.

Ltac hsimpl :=
  cbn -[GetFields PutHash Has DeleteFields GetHashAsArray GetFieldNames
        GetFieldsAsArray ldb_get wrongType len ParseInt FormatInt wrap64
        Nat.modulo Nat.ltb Nat.leb].

Lemma wrongType_absent (db : Store) (k : string) :
  absent db k -> wrongType (Has db k) = false.
Proof. unfold absent, wrongType. by intros ->. Qed.

Lemma wrongType_other (db : Store) (k : string) (t : ascii) :
  Has db k = (true, t) -> t <> Hash -> wrongType (Has db k) = true.
Proof.
  intros -> Ht. unfold wrongType. simpl.
  by destruct (Ascii.eqb_spec t Hash).
Qed.

Lemma wrongType_isHash (db : Store) (k : string) :
  isHash db k -> wrongType (Has db k) = false.
Proof. unfold isHash, wrongType. by intros ->. Qed.

Lemma absent_or_present (db : Store) (k : string) :
  absent db k \/ exists t, Has db k = (true, t).
Proof.
  unfold absent. destruct (Has db k) as [[] t]; [right; eauto|by left].
Qed.

(** The key of a command that is absent or of the hash type. *)
Lemma not_wrongType (db : Store) (k : string) :
  wrongType (Has db k) = false <-> absent db k \/ isHash db k.
Proof.
  unfold wrongType, absent, isHash. destruct (Has db k) as [[] t]; simpl.
  - destruct (Ascii.eqb_spec t Hash) as [->|Hne]; simpl.
    + split; auto.
    + split; [done|]. intros [|[= ?]]; done.
  - split; auto.
Qed.

Lemma hset_eq (db : Store) (k f x : string) (rest : list string) :
  wrongType (Has db k) = false ->
  hset (k :: f :: x :: rest) db =
  Some (if (len (ldb_get db (encodeFieldKey k f)) =? 0)%nat
        then OneInteger else ZeroInteger,
        <[encodeFieldKey k f := x]> (<[encodeMetaKey k := encodeMetadata Hash]> db)).
Proof.
  intros Hw. unfold hset. hsimpl. rewrite Hw, GetFields_one, lookup_singleton_eq.
  hsimpl. rewrite insert_singleton_eq, PutHash_singleton.
  by destruct (len _ =? 0)%nat.
Qed.

Lemma hsetnx_eq (db : Store) (k f x : string) (rest : list string) :
  wrongType (Has db k) = false ->
  hsetnx (k :: f :: x :: rest) db =
  if (len (ldb_get db (encodeFieldKey k f)) =? 0)%nat
  then Some (OneInteger,
             <[encodeFieldKey k f := x]> (<[encodeMetaKey k := encodeMetadata Hash]> db))
  else Some (ZeroInteger, db).
Proof.
  intros Hw. unfold hsetnx. hsimpl. rewrite Hw, GetFields_one, lookup_singleton_eq.
  hsimpl. rewrite insert_singleton_eq, PutHash_singleton.
  by destruct (len _ =? 0)%nat.
Qed.

Lemma hexists_eq (db : Store) (k f : string) (rest : list string) :
  wrongType (Has db k) = false ->
  hexists (k :: f :: rest) db =
  Some (if (len (ldb_get db (encodeFieldKey k f)) =? 0)%nat
        then ZeroInteger else OneInteger, db).
Proof.
  intros Hw. unfold hexists. hsimpl. rewrite Hw, GetFields_one, lookup_singleton_eq.
  hsimpl. by destruct (len _ =? 0)%nat.
Qed.

Lemma hget_eq (db : Store) (k f : string) (rest : list string) :
  isHash db k ->
  hget (k :: f :: rest) db =
  Some (if (len (ldb_get db (encodeFieldKey k f)) =? 0)%nat
        then NilBulkString else BulkString (ldb_get db (encodeFieldKey k f)), db).
Proof.
  intros Hh. unfold hget. hsimpl. rewrite (wrongType_isHash _ _ Hh), Hh.
  hsimpl. rewrite GetFields_one, lookup_singleton_eq.
  hsimpl. by destruct (len _ =? 0)%nat.
Qed.

Lemma hstrlen_eq (db : Store) (k f : string) (rest : list string) :
  isHash db k ->
  hstrlen (k :: f :: rest) db =
  Some (Integer (Z.of_nat (len (ldb_get db (encodeFieldKey k f)))), db).
Proof.
  intros Hh. unfold hstrlen. hsimpl. rewrite (wrongType_isHash _ _ Hh), Hh.
  hsimpl. by rewrite GetFields_one, lookup_singleton_eq.
Qed.

Lemma hincrby_eq (db : Store) (k f d : string) (rest : list string) (by_ : Z) :
  ParseInt d = Some by_ ->
  wrongType (Has db k) = false ->
  hincrby (k :: f :: d :: rest) db =
  let cur := ldb_get db (encodeFieldKey k f) in
  let store n :=
    Some (Integer n,
          <[encodeFieldKey k f := FormatInt n]>
            (<[encodeMetaKey k := encodeMetadata Hash]> db)) in
  if (len cur =? 0)%nat then store (wrap64 (0 + by_))
  else match ParseInt cur with
       | None => Some (NewError ErrNotValidInt, db)
       | Some i => store (wrap64 (i + by_))
       end.
Proof.
  intros Hd Hw. unfold hincrby. hsimpl. rewrite Hd. hsimpl.
  rewrite Hw, GetFields_one, lookup_singleton_eq. hsimpl.
  destruct (len _ =? 0)%nat.
  - by rewrite insert_singleton_eq, PutHash_singleton.
  - destruct (ParseInt (ldb_get _ _)); [|done].
    by rewrite insert_singleton_eq, PutHash_singleton.
Qed.

End HandlerFacts.

(** * Properties of the commands *)

Import Bytes Strconv BytesFacts StrconvFacts Storage Resp Command Notions
  StorageFacts HandlerFacts.

Lemma ldb_get_insert_eq (db : Store) (x y : string) : ldb_get (<[x := y]> db) x = y.
Proof. unfold ldb_get. by rewrite lookup_insert_eq. Qed.

Lemma isHash_put (db : Store) (k x y : string) :
  isHash (<[encodeFieldKey k x := y]> (<[encodeMetaKey k := encodeMetadata Hash]> db)) k.
Proof.
  unfold isHash, Has.
  rewrite lookup_insert_ne by (intros H; symmetry in H; by apply meta_ne_field in H).
  by rewrite lookup_insert_eq.
Qed.

Lemma len_0 (b : string) : (len b =? 0)%nat = true <-> b = EmptyString.
Proof. destruct b; simpl; split; done. Qed.



(** C6 (as amended): on a key that is absent or of the hash type, [hset]
    replies 1 exactly when the field holds no non-empty value and 0
    otherwise, and stores the value either way. Hence [hset k f v] on a
    field without a non-empty value followed by [hset k f v2] replies 1
    and then 0 when [v] is non-empty, and a following [hget k f] replies
    [v2] when [v2] is non-empty (the nil bulk string when it is empty). *)
Theorem hset_created_then_overwritten (db : Store) (k f v v2 : string) :
  wrongType (Has db k) = false ->
  exists db1 db2,
    hset [k; f; v] db =
      Some (if (len (ldb_get db (encodeFieldKey k f)) =? 0)%nat
            then OneInteger else ZeroInteger, db1) /\
    ldb_get db1 (encodeFieldKey k f) = v /\
    hset [k; f; v2] db1 =
      Some (if (len v =? 0)%nat then OneInteger else ZeroInteger, db2) /\
    ldb_get db2 (encodeFieldKey k f) = v2 /\
    hget [k; f] db2 =
      Some (if (len v2 =? 0)%nat then NilBulkString else BulkString v2, db2) /\
    (ldb_get db (encodeFieldKey k f) = EmptyString -> v <> EmptyString ->
     v2 <> EmptyString ->
     session [hset [k; f; v]; hset [k; f; v2]; hget [k; f]] db =
       Some ([OneInteger; ZeroInteger; BulkString v2], db2)).
Proof.
  intros Hw. eexists _, _.
  pose proof (isHash_put db k f v) as Hh1.
  pose proof (wrongType_isHash _ _ Hh1) as Hw1.
  assert (forall db1, hget [k; f]
      (<[encodeFieldKey k f := v2]> (<[encodeMetaKey k := encodeMetadata Hash]> db1)) =
      Some (if (len v2 =? 0)%nat then NilBulkString else BulkString v2,
            <[encodeFieldKey k f := v2]> (<[encodeMetaKey k := encodeMetadata Hash]> db1)))
    as Hget.
  { intros db1. rewrite hget_eq by apply isHash_put. by rewrite ldb_get_insert_eq. }
  split; [by apply hset_eq|]. split; [apply ldb_get_insert_eq|].
  split; [by rewrite hset_eq, ldb_get_insert_eq|].
  split; [apply ldb_get_insert_eq|]. split; [apply Hget|].
  intros Hcur Hv Hv2. unfold session.
  rewrite hset_eq, Hcur by done. simpl len. simpl Nat.eqb.
  rewrite hset_eq, ldb_get_insert_eq, Hget by done.
  destruct (len v =? 0)%nat eqn:E1; [by apply len_0 in E1|].
  destruct (len v2 =? 0)%nat eqn:E2; [by apply len_0 in E2|]. done.
Qed.

Lemma hset_created_then_overwritten_witness :
  wrongType (Has ∅ "k") = false /\
  exists db2,
    session [hset ["k"; "f"; "v"]; hset ["k"; "f"; "v2"]; hget ["k"; "f"]] ∅ =
    Some ([OneInteger; ZeroInteger; BulkString "v2"], db2).
Proof.
  split; [reflexivity|].
  edestruct (hset_created_then_overwritten ∅ "k" "f" "v" "v2")
    as (db1 & db2 & _ & _ & _ & _ & _ & H); [reflexivity|].
  exists db2. apply H; done.
Defined.

(** C6, as stated, fails for an empty first value: the second [hset]
    finds a zero-length value, takes the field for new and replies 1. It
    fails for an empty second value, for which [hget] replies the nil bulk
    string, and for a key of another type, on which [hset] replies the
    WrongType error. *)
Lemma hset_empty_first_value_counterexample :
  fst <$> session [hset ["k"; "f"; EmptyString]; hset ["k"; "f"; "v2"]] ∅ =
    Some [OneInteger; OneInteger] /\
  fst <$> session [hset ["k"; "f"; "v"]; hset ["k"; "f"; EmptyString];
                   hget ["k"; "f"]] ∅ =
    Some [OneInteger; ZeroInteger; NilBulkString] /\
  let db := <[encodeMetaKey "k" := "s"%string]> (∅ : Store) in
  hset ["k"; "f"; "v"] db = Some (NewError ErrWrongType, db).
Proof. repeat split; vm_compute; reflexivity. Qed.




(** C2 (as amended): for a key without metadata entry, [hlen], [hget],
    [hgetall], [hkeys], [hvals], [hstrlen] and [hdel] reply their empty
    result (0, nil bulk string, empty array) and leave the database as it
    is. [hexists] never replies an error and never writes either, but it
    goes by the field entry alone: it replies 0 when no non-empty value is
    stored under the key and field, and 1 when one is; with metadata
    consistent with the field entries and a separator-free key no such
    entry exists and it replies 0. *)
Theorem absent_key_replies (db : Store) (k f : string) (rest : list string) :
  absent db k ->
  hlen (k :: rest) db = Some (ZeroInteger, db) /\
  hget (k :: rest) db = Some (NilBulkString, db) /\
  hgetall (k :: rest) db = Some (EmptyArray, db) /\
  hkeys (k :: rest) db = Some (EmptyArray, db) /\
  hvals (k :: rest) db = Some (EmptyArray, db) /\
  hstrlen (k :: rest) db = Some (ZeroInteger, db) /\
  hdel (k :: f :: rest) db = Some (ZeroInteger, db) /\
  hexists (k :: f :: rest) db =
    Some (if (len (ldb_get db (encodeFieldKey k f)) =? 0)%nat
          then ZeroInteger else OneInteger, db) /\
  (metaConsistent db -> sepFree k ->
   hexists (k :: f :: rest) db = Some (ZeroInteger, db)).
Proof.
  intros Ha. pose proof (wrongType_absent _ _ Ha) as Hw.
  assert (negb (Has db k).1 = true) as Hn by (unfold absent in Ha; by rewrite Ha).
  repeat split;
    try (unfold hlen, hget, hgetall, hkeys, hvals, hstrlen, hdel; hsimpl;
         by rewrite Hn).
  - by apply hexists_eq.
  - intros Hc Hk. rewrite hexists_eq by done.
    assert (db !! encodeFieldKey k f = None) as Hnone.
    { destruct (db !! encodeFieldKey k f) as [y|] eqn:E; [|done].
      assert (isHash db k) as Hh by (apply Hc; [done|]; exists f; by rewrite E).
      unfold isHash in Hh. unfold absent in Ha. by rewrite Hh in Ha. }
    unfold ldb_get. by rewrite Hnone.
Qed.

Lemma absent_key_replies_witness :
  absent ∅ "k" /\
  hlen ["k"] ∅ = Some (ZeroInteger, ∅) /\
  hdel ["k"; "f"] ∅ = Some (ZeroInteger, ∅) /\
  hexists ["k"; "f"] ∅ = Some (ZeroInteger, ∅).
Proof.
  split; [reflexivity|].
  destruct (absent_key_replies ∅ "k" "f" []) as (H1 & _ & _ & _ & _ & _ & H7 & H8 & _);
    [reflexivity|].
  split; [exact H1|]. split; [exact H7|exact H8].
Defined.

(** C2, as stated, fails for [hexists]: after [hset "a|b" "c" "v"] the key
    "a" has no metadata entry, yet the entry written for ("a|b", "c") is
    also the entry of ("a", "b|c"), and [hexists "a" "b|c"] replies 1. *)
Lemma hexists_absent_key_counterexample :
  let db1 :=
    <[encodeFieldKey "a|b" "c" := "v"%string]>
      (<[encodeMetaKey "a|b" := encodeMetadata Hash]> (∅ : Store)) in
  hset ["a|b"; "c"; "v"] ∅ = Some (OneInteger, db1) /\
  absent db1 "a" /\
  hexists ["a"; "b|c"] db1 = Some (OneInteger, db1).
Proof. repeat split; vm_compute; reflexivity. Qed.

(** ** Statements over every handler *)

Section AllHandlers.
Variable float64 : Type.
Variable ParseFloat : string -> option float64.
Variable fadd : float64 -> float64 -> float64.
Variable fzero : float64.
Variable FormatFloat : float64 -> string.

Local Abbreviation handle := (handler float64 ParseFloat fadd fzero FormatFloat).

Ltac unfold_handlers :=
  unfold handler, hdel, hexists, hget, hgetall, hincrby, hincrbyfloat, hkeys,
    hlen, hmget, hmset, hset, hsetnx, hstrlen, hvals.

Ltac split_args :=
  repeat match goal with
         | |- context [mbind _ ?o] => destruct o eqn:?; hsimpl
         end.

Ltac nat_bools :=
  repeat match goal with
         | H : context [(?a <? ?b)%nat] |- _ => destruct (Nat.ltb_spec a b)
         | H : context [(?a <=? ?b)%nat] |- _ => destruct (Nat.leb_spec a b)
         | H : context [(?a =? ?b)%nat] |- _ => destruct (Nat.eqb_spec a b)
         | |- context [(?a <? ?b)%nat] => destruct (Nat.ltb_spec a b)
         | |- context [(?a <=? ?b)%nat] => destruct (Nat.leb_spec a b)
         | |- context [(?a =? ?b)%nat] => destruct (Nat.eqb_spec a b)
         end;
  simpl in *; try done; try lia.

Ltac parsed :=
  match goal with
  | H : bool_decide (is_Some ?o) = true |- _ =>
      apply bool_decide_eq_true in H; destruct H as [? H]; rewrite H
  | H : bool_decide (is_Some ?o) = false |- _ =>
      apply bool_decide_eq_false in H; destruct o eqn:?; [by destruct H|]
  end.

(** C3 (as amended): when the key exists with a type other than hash, no
    handler changes the database, whatever its arguments; the reply is
    the WrongType error whenever the arguments pass the checks the handler
    makes before it looks at the key (the argument count of [hdel],
    [hmget] and [hmset], the parse of the increment of [hincrby] and
    [hincrbyfloat]). Only these five handlers make such a check, and when
    it fails the outcome is the check's own: [hdel], [hmget] and [hmset]
    reply the WrongNumberOfArguments error naming the command, the
    database untouched; [hincrby] and [hincrbyfloat] reply the
    NotValidInteger error, the database untouched, when the third argument
    is there and does not parse, and panic on indexing it, with no reply,
    when it is missing. *)
Theorem wrong_type_rejected (c : Cmd) (v : Args) (db : Store) (k : string)
    (t : ascii) :
  v !! 0%nat = Some k -> Has db k = (true, t) -> t <> Hash ->
  (forall r db', handle c v db = Some (r, db') -> db' = db) /\
  (argsChecked float64 ParseFloat c v = true ->
   handle c v db = Some (NewError ErrWrongType, db)) /\
  (argsChecked float64 ParseFloat c v = false ->
   match c with
   | HDEL =>
       (length v < 2)%nat /\
       handle c v db = Some (NewError (ErrFmtWrongNumberArgument "hdel"), db)
   | HMGET =>
       (length v < 2)%nat /\
       handle c v db = Some (NewError (ErrFmtWrongNumberArgument "hmget"), db)
   | HMSET =>
       ((length v <= 1)%nat \/ (length v mod 2)%nat <> 1%nat) /\
       handle c v db = Some (NewError (ErrFmtWrongNumberArgument "hmset"), db)
   | HINCRBY =>
       match v !! 2%nat with
       | Some d =>
           ParseInt d = None /\
           handle c v db = Some (NewError ErrNotValidInt, db)
       | None => handle c v db = None
       end
   | HINCRBYFLOAT =>
       match v !! 2%nat with
       | Some d =>
           ParseFloat d = None /\
           handle c v db = Some (NewError ErrNotValidInt, db)
       | None => handle c v db = None
       end
   | _ => False
   end).
Proof.
  intros Hv HHas Ht. destruct v as [|k' rest]; [done|]. injection Hv as ->.
  pose proof (wrongType_other _ _ _ HHas Ht) as Hw.
  assert (negb (Has db k).1 = false) as Hn by (by rewrite HHas).
  split; [|split].
  - intros r db'. destruct c; unfold_handlers; hsimpl; rewrite ?Hn, ?Hw; hsimpl;
      split_args; repeat case_match; hsimpl; rewrite ?Hn, ?Hw; intros;
      simplify_eq; done.
  - destruct c; unfold argsChecked; unfold_handlers; hsimpl;
      rewrite ?Hn, ?Hw; hsimpl; split_args; try done; intros Hc;
      try (by parsed); nat_bools.
  - destruct c; unfold argsChecked; try done.
    + intros Hc. apply Nat.leb_gt in Hc. split; [done|].
      unfold_handlers. by destruct (Nat.ltb_spec (length (k :: rest)) 2); [|lia].
    + unfold_handlers. hsimpl. destruct (rest !! 1%nat) as [d|]; hsimpl; [|done].
      intros Hc. apply bool_decide_eq_false in Hc.
      destruct (ParseInt d) eqn:Hd; [by destruct Hc|done].
    + unfold_handlers. hsimpl. destruct (rest !! 1%nat) as [d|]; hsimpl; [|done].
      intros Hc. apply bool_decide_eq_false in Hc.
      destruct (ParseFloat d) eqn:Hd; [by destruct Hc|done].
    + intros Hc. apply Nat.leb_gt in Hc. split; [done|].
      unfold_handlers. by destruct (Nat.ltb_spec (length (k :: rest)) 2); [|lia].
    + intros Hc. unfold_handlers.
      destruct (Nat.ltb_spec 1 (length (k :: rest))) as [H1|H1];
        destruct (Nat.eqb_spec (length (k :: rest) mod 2) 1) as [H2|H2];
        try done.
      * split; [by right|].
        by destruct (Nat.leb_spec (length (k :: rest)) 1).
      * split; [left; lia|].
        by destruct (Nat.leb_spec (length (k :: rest)) 1); [|lia].
      * split; [left; lia|].
        by destruct (Nat.leb_spec (length (k :: rest)) 1); [|lia].
Qed.

(** C8 (as amended): [hincrbyfloat] reports an increment that fails to
    parse with the NotValidInteger error, and, once the increment has
    parsed and the key is absent or of the hash type, a stored value of
    non-zero length that fails to parse with the NotValidFloat error; the
    database is unchanged in both cases. A stored value of length zero is
    not parsed at all: under the same conditions the increment is added to
    zero, the printed sum is stored under the field and replied, whether
    or not the empty string parses. Conversely the handler replies
    NotValidInteger only for an increment that fails to parse, and
    NotValidFloat only for a stored value of non-zero length that fails to
    parse after the increment has parsed; whenever it replies an error the
    database is unchanged. *)
Theorem hincrbyfloat_errors (db : Store) (k f d : string) :
  (ParseFloat d = None ->
   hincrbyfloat float64 ParseFloat fadd fzero FormatFloat [k; f; d] db =
   Some (NewError ErrNotValidInt, db)) /\
  (forall by_, ParseFloat d = Some by_ ->
   wrongType (Has db k) = false ->
   ldb_get db (encodeFieldKey k f) <> EmptyString ->
   ParseFloat (ldb_get db (encodeFieldKey k f)) = None ->
   hincrbyfloat float64 ParseFloat fadd fzero FormatFloat [k; f; d] db =
   Some (NewError ErrNotValidFloat, db)) /\
  (forall by_, ParseFloat d = Some by_ ->
   wrongType (Has db k) = false ->
   ldb_get db (encodeFieldKey k f) = EmptyString ->
   hincrbyfloat float64 ParseFloat fadd fzero FormatFloat [k; f; d] db =
   Some (BulkString (FormatFloat (fadd fzero by_)),
         <[encodeFieldKey k f := FormatFloat (fadd fzero by_)]>
           (<[encodeMetaKey k := encodeMetadata Hash]> db))) /\
  (forall e db',
   hincrbyfloat float64 ParseFloat fadd fzero FormatFloat [k; f; d] db =
   Some (NewError e, db') ->
   db' = db /\
   (e = ErrNotValidInt -> ParseFloat d = None) /\
   (e = ErrNotValidFloat ->
    ParseFloat d <> None /\
    ldb_get db (encodeFieldKey k f) <> EmptyString /\
    ParseFloat (ldb_get db (encodeFieldKey k f)) = None)).
Proof.
  split; [|split; [|split]].
  - intros Hd. unfold hincrbyfloat. hsimpl. by rewrite Hd.
  - intros by_ Hd Hw Hne Hcur. unfold hincrbyfloat. hsimpl. rewrite Hd. hsimpl.
    rewrite Hw, GetFields_one, lookup_singleton_eq. hsimpl.
    destruct (len _ =? 0)%nat eqn:E; [by apply len_0 in E|].
    by rewrite Hcur.
  - intros by_ Hd Hw Hcur. unfold hincrbyfloat. hsimpl. rewrite Hd. hsimpl.
    rewrite Hw, GetFields_one, lookup_singleton_eq. hsimpl.
    rewrite Hcur. simpl len. simpl Nat.eqb. cbv beta iota.
    by rewrite insert_singleton_eq, lookup_singleton_eq, PutHash_singleton.
  - intros e db'. unfold hincrbyfloat. hsimpl.
    destruct (ParseFloat d) as [by_|] eqn:Hd; hsimpl.
    + destruct (wrongType _); [by intros [= <- <-]|].
      rewrite GetFields_one, lookup_singleton_eq. hsimpl.
      destruct (len _ =? 0)%nat eqn:E; [done|].
      destruct (ParseFloat (ldb_get _ _)) eqn:Hcur; [done|].
      intros [= <- <-]. split; [done|]. split; [done|]. intros _.
      split; [done|]. split; [|done]. intros Hempty.
      by rewrite Hempty in E.
    + by intros [= <- <-].
Qed.

Lemma hmset_pairs_even (n : nat) (rest : list string) (m : gmap string string) :
  length rest = (2 * n)%nat -> is_Some (hmset_pairs rest m).
Proof.
  revert rest m. induction n as [|n IH]; intros rest m Hlen.
  - destruct rest; [by eexists|done].
  - destruct rest as [|a [|b rest]]; simpl in Hlen; try lia.
    simpl. apply IH. lia.
Qed.

Lemma hmset_no_panic (v : Args) (db : Store) : hmset v db <> None.
Proof.
  unfold hmset. destruct v as [|k rest]; [done|]. hsimpl.
  destruct ((S (length rest) <=? 1)%nat || _) eqn:E; [done|].
  destruct (wrongType _); [done|].
  apply orb_false_elim in E as [E1 E2]. apply negb_false_iff in E2.
  apply Nat.eqb_eq in E2.
  rewrite drop_0.
  destruct (hmset_pairs_even (length rest / 2) rest ∅) as [h ->]; [|done].
  pose proof (Nat.div_mod_eq (S (length rest)) 2) as Hd.
  pose proof (Nat.div_mod_eq (length rest) 2) as Hd'.
  pose proof (Nat.mod_upper_bound (length rest) 2). lia.
Qed.

(** C9 (as amended): the variadic handlers [hdel], [hmget] and [hmset]
    check their argument count first and reply the WrongNumberOfArguments
    error naming the command, the database untouched; they index no
    argument out of range whatever the argument list. The other handlers
    make no check of their own and never reply that error: they stay
    within range when the list holds the arguments they index (one for
    [hgetall], [hkeys], [hlen], [hvals]; two for [hexists], [hget],
    [hstrlen]; three for [hincrby], [hincrbyfloat], [hset], [hsetnx]). *)
Theorem argument_checks (v : Args) (db : Store) :
  ((length v < 2)%nat ->
   hdel v db = Some (NewError (ErrFmtWrongNumberArgument "hdel"), db) /\
   hmget v db = Some (NewError (ErrFmtWrongNumberArgument "hmget"), db)) /\
  ((length v <= 1)%nat \/ (length v mod 2)%nat <> 1%nat ->
   hmset v db = Some (NewError (ErrFmtWrongNumberArgument "hmset"), db)) /\
  (forall c, (indexed c <= length v)%nat -> handle c v db <> None) /\
  (forall c r db' name, (0 < indexed c)%nat -> handle c v db = Some (r, db') ->
   r <> NewError (ErrFmtWrongNumberArgument name)).
Proof.
  split; [|split; [|split]].
  - intros Hlen. unfold hdel, hmget.
    by destruct (Nat.ltb_spec (length v) 2); [|lia].
  - intros Hlen. unfold hmset.
    destruct (Nat.leb_spec (length v) 1); [done|].
    destruct (Nat.eqb_spec (length v mod 2) 1); [|done]. by destruct Hlen; lia.
  - intros c Hc.
    destruct c; try apply hmset_no_panic; simpl in Hc;
      destruct v as [|k [|f [|d rest]]]; simpl in Hc; try lia;
      unfold_handlers; hsimpl; repeat case_match; done.
  - intros c r db' name Hc.
    destruct c; simpl in Hc; try lia;
      destruct v as [|k [|f [|d rest]]];
      unfold_handlers; hsimpl; repeat case_match; intros; simplify_eq; done.
Qed.

End AllHandlers.

Lemma wrong_type_rejected_witness :
  let db := <[encodeMetaKey "k" := "s"%string]> (∅ : Store) in
  handler Z ParseInt Z.add 0 FormatInt HSET ["k"; "f"; "v"] db =
    Some (NewError ErrWrongType, db) /\
  handler Z ParseInt Z.add 0 FormatInt HDEL ["k"] db =
    Some (NewError (ErrFmtWrongNumberArgument "hdel"), db) /\
  handler Z ParseInt Z.add 0 FormatInt HINCRBYFLOAT ["k"; "f"; "abc"] db =
    Some (NewError ErrNotValidInt, db) /\
  handler Z ParseInt Z.add 0 FormatInt HINCRBY ["k"; "f"] db = None.
Proof.
  intros db. split; [|split; [|split]].
  - pose proof (wrong_type_rejected Z ParseInt Z.add 0 FormatInt HSET
                  ["k"; "f"; "v"] db "k" "s"%char) as H.
    destruct H as (_ & H & _); [reflexivity|reflexivity|done|].
    apply H. reflexivity.
  - pose proof (wrong_type_rejected Z ParseInt Z.add 0 FormatInt HDEL
                  ["k"] db "k" "s"%char) as H.
    destruct H as (_ & _ & H); [reflexivity|reflexivity|done|].
    apply H. reflexivity.
  - pose proof (wrong_type_rejected Z ParseInt Z.add 0 FormatInt HINCRBYFLOAT
                  ["k"; "f"; "abc"] db "k" "s"%char) as H.
    destruct H as (_ & _ & H); [reflexivity|reflexivity|done|].
    apply H. reflexivity.
  - pose proof (wrong_type_rejected Z ParseInt Z.add 0 FormatInt HINCRBY
                  ["k"; "f"] db "k" "s"%char) as H.
    destruct H as (_ & _ & H); [reflexivity|reflexivity|done|].
    apply H. reflexivity.
Defined.

(** C3, as stated, fails for [hincrby] with an increment that does not
    parse: the parse comes before the type check, and the reply is
    NotValidInteger although the key holds another type. *)
Lemma wrong_type_unparsed_increment_counterexample :
  let db := <[encodeMetaKey "k" := "s"%string]> (∅ : Store) in
  Has db "k" = (true, "s"%char) /\ "s"%char <> Hash /\
  hincrby ["k"; "f"; "abc"] db = Some (NewError ErrNotValidInt, db).
Proof.
  intros db. split; [reflexivity|]. split; [done|]. vm_compute. reflexivity.
Qed.

Lemma hincrbyfloat_errors_witness :
  let db :=
    <[encodeFieldKey "k" "f" := "abc"%string]>
      (<[encodeMetaKey "k" := encodeMetadata Hash]> (∅ : Store)) in
  hincrbyfloat Z ParseInt Z.add 0 FormatInt ["k"; "f"; "x"] db =
    Some (NewError ErrNotValidInt, db) /\
  hincrbyfloat Z ParseInt Z.add 0 FormatInt ["k"; "f"; "5"] db =
    Some (NewError ErrNotValidFloat, db) /\
  hincrbyfloat Z ParseInt Z.add 0 FormatInt ["k"; "g"; "5"] db =
    Some (BulkString "5",
          <[encodeFieldKey "k" "g" := "5"%string]>
            (<[encodeMetaKey "k" := encodeMetadata Hash]> db)).
Proof.
  intros db. split; [|split].
  - destruct (hincrbyfloat_errors Z ParseInt Z.add 0 FormatInt db "k" "f" "x")
      as (H & _).
    apply H. reflexivity.
  - destruct (hincrbyfloat_errors Z ParseInt Z.add 0 FormatInt db "k" "f" "5")
      as (_ & H & _).
    apply (H 5); [reflexivity|reflexivity|done|reflexivity].
  - destruct (hincrbyfloat_errors Z ParseInt Z.add 0 FormatInt db "k" "g" "5")
      as (_ & _ & H & _).
    apply (H 5); reflexivity.
Defined.

(** C8, as stated, fails for a stored value of length zero. [hset] stores
    the empty string under the field; it does not parse, yet
    [hincrbyfloat] replies no error: it takes the [len == 0] branch, adds
    the increment to zero, replies the sum and overwrites the field. The
    float operations are instantiated by the integers of [Strconv], whose
    parser rejects the empty string as [strconv.ParseFloat] does. *)
Lemma hincrbyfloat_empty_value_counterexample :
  let db :=
    <[encodeFieldKey "k" "f" := EmptyString]>
      (<[encodeMetaKey "k" := encodeMetadata Hash]> (∅ : Store)) in
  hset ["k"; "f"; EmptyString] ∅ = Some (OneInteger, db) /\
  db !! encodeFieldKey "k" "f" = Some EmptyString /\
  ParseInt (ldb_get db (encodeFieldKey "k" "f")) = None /\
  hincrbyfloat Z ParseInt Z.add 0 FormatInt ["k"; "f"; "5"] db =
    Some (BulkString "5", <[encodeFieldKey "k" "f" := "5"%string]> db) /\
  hincrbyfloat Z ParseInt Z.add 0 FormatInt ["k"; "f"; "5"] db <>
    Some (NewError ErrNotValidFloat, db) /\
  <[encodeFieldKey "k" "f" := "5"%string]> db <> db.
Proof.
  intros db.
  assert (hincrbyfloat Z ParseInt Z.add 0 FormatInt ["k"; "f"; "5"] db =
          Some (BulkString "5", <[encodeFieldKey "k" "f" := "5"%string]> db))
    as Hrun by (vm_compute; reflexivity).
  split; [vm_compute; reflexivity|]. split; [reflexivity|].
  split; [reflexivity|]. split; [exact Hrun|]. split.
  - rewrite Hrun. intros [=].
  - intros Heq.
    apply (f_equal (fun m : Store => m !! encodeFieldKey "k" "f")) in Heq.
    rewrite lookup_insert_eq in Heq. unfold db in Heq.
    rewrite lookup_insert_eq in Heq. discriminate Heq.
Qed.

Lemma argument_checks_witness :
  hdel ["k"] ∅ = Some (NewError (ErrFmtWrongNumberArgument "hdel"), ∅) /\
  hmset ["k"; "f"] ∅ = Some (NewError (ErrFmtWrongNumberArgument "hmset"), ∅) /\
  handler Z ParseInt Z.add 0 FormatInt HGET ["k"; "f"] ∅ <> None.
Proof.
  destruct (argument_checks Z ParseInt Z.add 0 FormatInt ["k"; "f"] ∅)
    as (_ & H2 & H3 & _).
  destruct (argument_checks Z ParseInt Z.add 0 FormatInt ["k"] ∅)
    as (H1 & _).
  split; [apply H1; simpl; lia|]. split; [apply H2; right; done|].
  apply H3. simpl. lia.
Defined.

(** C9, as stated, fails for the handlers of fixed arity: [hget] makes no
    check of its argument list and indexes [v[0]] of an empty list, and
    [v[1]] of a one-element list when the key is a hash; [hset] indexes
    [v[2]] of a two-element list. *)
Lemma unchecked_arguments_counterexample :
  hget [] ∅ = None /\
  (exists db1, hset ["k"; "f"; "v"] ∅ = Some (OneInteger, db1) /\
               hget ["k"] db1 = None) /\
  hset ["k"; "f"] ∅ = None.
Proof.
  split; [reflexivity|]. split; [|reflexivity].
  eexists. split; [by apply hset_eq|]. vm_compute. reflexivity.
Qed.

(** ** Multi-set *)

Lemma hmset_pairs_flatten (pairs : list (string * string)) (m : gmap string string) :
  hmset_pairs (flatten pairs) m = Some (foldl (fun m p => <[p.1 := p.2]> m) m pairs).
Proof.
  revert m. induction pairs as [|[f x] pairs IH]; intros m; [done|].
  simpl. apply IH.
Qed.

Lemma length_flatten (pairs : list (string * string)) :
  length (flatten pairs) = (2 * length pairs)%nat.
Proof. induction pairs as [|[f x] pairs IH]; simpl; lia. Qed.

Lemma even_args_flatten (n : nat) (rest : list string) :
  length rest = (2 * n)%nat ->
  exists pairs, rest = flatten pairs /\ length pairs = n.
Proof.
  revert rest. induction n as [|n IH]; intros rest Hlen.
  - destruct rest; [|done]. by exists [].
  - destruct rest as [|f [|x rest]]; simpl in Hlen; try lia.
    destruct (IH rest) as (pairs & -> & Hp); [lia|].
    exists ((f, x) :: pairs). simpl. by rewrite Hp.
Qed.

Lemma odd_args_flatten (v : Args) :
  (1 < length v)%nat -> (length v mod 2)%nat = 1%nat ->
  exists k pairs, v = k :: flatten pairs /\ pairs <> [].
Proof.
  intros Hlen Hodd. destruct v as [|k rest]; [simpl in Hlen; lia|].
  change (length (k :: rest)) with (S (length rest)) in *.
  destruct (even_args_flatten (length rest / 2) rest) as (pairs & -> & Hp).
  - pose proof (Nat.div_mod_eq (S (length rest)) 2).
    pose proof (Nat.div_mod_eq (length rest) 2).
    pose proof (Nat.mod_upper_bound (length rest) 2). lia.
  - exists k, pairs. split; [done|]. intros ->. simpl in Hlen. lia.
Qed.

Lemma fieldSet_nonempty (pairs : list (string * string)) :
  pairs <> [] -> fieldSet pairs <> ∅.
Proof.
  destruct pairs as [|p pairs _] using rev_ind; [done|]. intros _.
  unfold fieldSet. rewrite foldl_app. simpl. apply insert_non_empty.
Qed.

Lemma hmset_eq (db : Store) (k : string) (pairs : list (string * string)) :
  pairs <> [] ->
  hmset (k :: flatten pairs) db =
  if wrongType (Has db k) then Some (NewError ErrWrongType, db)
  else Some (OkSimpleString, PutHash db k Hash (fieldSet pairs)).
Proof.
  intros Hp. unfold hmset.
  destruct pairs as [|[f x] pairs]; [done|]. hsimpl.
  assert (forall n, (S (S (S n)) <=? 1)%nat = false) as -> by done.
  assert ((S (S (S (length (flatten pairs)))) mod 2 =? 1)%nat = true) as ->.
  { apply Nat.eqb_eq. rewrite length_flatten.
    replace (S (S (S (2 * length pairs))))
      with (1 + S (length pairs) * 2)%nat by lia.
    by rewrite Nat.Div0.mod_add. }
  hsimpl. destruct (wrongType _); [done|].
  by rewrite hmset_pairs_flatten.
Qed.

(** C7 (as amended): [hmset] replies the WrongNumberOfArguments error
    exactly when the argument count is at most one or even, so also for
    the key alone. With a key and one or more field/value pairs it replies
    the WrongType error, the database unchanged, when the key holds
    another type; otherwise it writes the metadata entry and every
    given field (the last value of a repeated field) in one batch, leaves
    the other fields as they were, and replies OK. *)
Theorem hmset_spec (v : Args) (db : Store) :
  (hmset v db = Some (NewError (ErrFmtWrongNumberArgument "hmset"), db) <->
   (length v <= 1)%nat \/ (length v mod 2)%nat <> 1%nat) /\
  ((1 < length v)%nat -> (length v mod 2)%nat = 1%nat ->
   exists k pairs, v = k :: flatten pairs /\ pairs <> [] /\
     (wrongType (Has db k) = true ->
      hmset v db = Some (NewError ErrWrongType, db)) /\
     (wrongType (Has db k) = false ->
      exists db1,
        hmset v db = Some (OkSimpleString, db1) /\
        db1 = PutHash db k Hash (fieldSet pairs) /\
        isHash db1 k /\
        forall f, db1 !! encodeFieldKey k f =
                  match fieldSet pairs !! f with
                  | Some x => Some x
                  | None => db !! encodeFieldKey k f
                  end)).
Proof.
  split.
  - split.
    + intros H. destruct (Nat.leb_spec (length v) 1) as [|Hlen]; [by left|].
      destruct (Nat.eq_dec (length v mod 2)%nat 1%nat) as [Hodd|]; [|by right].
      destruct (odd_args_flatten v Hlen Hodd) as (k & pairs & -> & Hp).
      rewrite hmset_eq in H by done. by destruct (wrongType _).
    + intros Hlen. unfold hmset.
      destruct (Nat.leb_spec (length v) 1); [done|].
      destruct (Nat.eqb_spec (length v mod 2)%nat 1%nat); [|done].
      by destruct Hlen; lia.
  - intros Hlen Hodd.
    destruct (odd_args_flatten v Hlen Hodd) as (k & pairs & -> & Hp).
    exists k, pairs. split; [done|]. split; [done|].
    rewrite hmset_eq by done. split; intros ->; [done|].
    eexists. split; [done|]. split; [done|]. split.
    + apply Has_PutHash.
    + intros f. apply lookup_PutHash_field.
Qed.

Lemma hmset_spec_witness :
  hmset ["k"; "f"] ∅ = Some (NewError (ErrFmtWrongNumberArgument "hmset"), ∅) /\
  exists k pairs, ["k"; "f"; "v"] = k :: flatten pairs /\ pairs <> [] /\
    exists db1, hmset ["k"; "f"; "v"] ∅ = Some (OkSimpleString, db1).
Proof.
  split.
  - apply (hmset_spec ["k"; "f"] ∅). right. simpl. lia.
  - destruct (hmset_spec ["k"; "f"; "v"] ∅) as [_ H].
    destruct H as (k & pairs & Hv & Hp & _ & H); [simpl; lia|reflexivity|].
    exists k, pairs. split; [exact Hv|]. split; [exact Hp|].
    injection Hv as <- _.
    destruct H as (db1 & H1 & _); [reflexivity|]. by exists db1.
Defined.

(** C7, as stated, fails for the key alone: one argument is an odd count,
    yet [hmset] replies WrongNumberOfArguments; and with an odd count the
    reply is not always OK: a key of another type gets WrongType. *)
Lemma hmset_key_alone_counterexample :
  (length ["k"] mod 2)%nat = 1%nat /\
  hmset ["k"] ∅ = Some (NewError (ErrFmtWrongNumberArgument "hmset"), ∅) /\
  let db := <[encodeMetaKey "k" := "s"%string]> (∅ : Store) in
  hmset ["k"; "f"; "v"] db = Some (NewError ErrWrongType, db).
Proof. split; [reflexivity|]. split; [reflexivity|]. vm_compute. reflexivity. Qed.

(** ** Get-all after multi-set *)

Lemma foldl_snoc_flat_map {A B : Type} (g : A -> list B) (l : list A) (acc : list B) :
  foldl (fun arr a => (arr ++ g a)%list) acc l = (acc ++ flat_map g l)%list.
Proof.
  revert acc. induction l as [|a l IH]; intros acc; simpl.
  - by rewrite app_nil_r.
  - by rewrite IH, app_assoc.
Qed.

Lemma hgetall_eq (db : Store) (k : string) (rest : list string) :
  isHash db k ->
  hgetall (k :: rest) db = Some (Array (flatReply (GetHashAsArray db k)), db).
Proof.
  intros Hh. unfold hgetall. hsimpl. rewrite (wrongType_isHash _ _ Hh), Hh.
  hsimpl. unfold flatReply.
  by rewrite (foldl_snoc_flat_map
    (fun fd => [BulkString (Key fd); BulkString (Value fd)])).
Qed.

Lemma elem_of_GetHashAsArray (db : Store) (k f x : string) :
  sepFree k ->
  mkField f x ∈ GetHashAsArray db k <-> db !! encodeFieldKey k f = Some x.
Proof.
  intros Hk. unfold GetHashAsArray. rewrite list_elem_of_fmap. split.
  - intros ([key y] & [= -> ->] & Hin). apply elem_of_Iterator in Hin as [Hl Hp].
    apply HasPrefix_field in Hp as [f' ->]. simpl. by rewrite fieldOf_encode.
  - intros Hl. exists (encodeFieldKey k f, x). simpl.
    rewrite fieldOf_encode by done. split; [done|].
    apply elem_of_Iterator. split; [done|]. apply HasPrefix_field. eauto.
Qed.

Lemma NoDup_GetHashAsArray (db : Store) (k : string) :
  sepFree k -> NoDup (GetHashAsArray db k).
Proof.
  intros Hk. unfold GetHashAsArray.
  apply NoDup_fmap_2_strong; [|apply NoDup_Iterator].
  intros [k1 y1] [k2 y2] H1 H2 [= Hf ->].
  apply elem_of_Iterator in H1 as [_ [f1 ->]%HasPrefix_field].
  apply elem_of_Iterator in H2 as [_ [f2 ->]%HasPrefix_field].
  simpl in Hf. rewrite !fieldOf_encode in Hf by done. by subst.
Qed.

Lemma foldl_insert_lookup (pairs : list (string * string)) (m : gmap string string)
    (f x : string) :
  NoDup (pairs.*1) ->
  foldl (fun m p => <[p.1 := p.2]> m) m pairs !! f = Some x <->
  (f, x) ∈ pairs \/ ((f ∉ pairs.*1) /\ m !! f = Some x).
Proof.
  revert m. induction pairs as [|[f' x'] pairs IH]; intros m Hnd.
  - simpl. split; [intros H; right; split; [apply not_elem_of_nil|done]|].
    intros [H|[_ H]]; [by apply elem_of_nil in H|done].
  - apply NoDup_cons in Hnd as [Hnin Hnd]. simpl. rewrite (IH _ Hnd).
    rewrite elem_of_cons, not_elem_of_cons. simpl.
    destruct (decide (f' = f)) as [->|Hne].
    + rewrite lookup_insert_eq. split.
      * intros [Hin|[_ [= ->]]]; [by left; right|by left; left].
      * intros [[[= ->]|Hin]|[[Hc _] _]]; [by right|by left|done].
    + rewrite lookup_insert_ne by done. split.
      * intros [Hin|[Hn Hm]]; [by left; right|by right].
      * intros [[[= -> ->]|Hin]|[[_ Hn] Hm]]; [done|by left|by right].
Qed.

Lemma fieldSet_lookup (pairs : list (string * string)) (f x : string) :
  NoDup (pairs.*1) -> fieldSet pairs !! f = Some x <-> (f, x) ∈ pairs.
Proof.
  intros Hnd. unfold fieldSet. rewrite foldl_insert_lookup by done.
  rewrite lookup_empty. split; [intros [H|[_ H]]; done|by left].
Qed.

(** C5 (as amended): for a separator-free key that is absent or of the
    hash type and holds no field entry, after [hmset] with one or more
    field/value pairs [hgetall] replies the flattening of a duplicate-free
    list of fields that holds exactly the pairs of the field set written:
    each given field with its last given value, which for pairwise
    distinct fields are exactly the given pairs. *)
Theorem hmset_hgetall_roundtrip (db : Store) (k : string)
    (pairs : list (string * string)) :
  sepFree k -> wrongType (Has db k) = false -> ~ hasField db k -> pairs <> [] ->
  exists db1 fields,
    hmset (k :: flatten pairs) db = Some (OkSimpleString, db1) /\
    hgetall [k] db1 = Some (Array (flatReply fields), db1) /\
    NoDup fields /\
    (forall f x, mkField f x ∈ fields <-> fieldSet pairs !! f = Some x) /\
    (NoDup (pairs.*1) -> forall f x, mkField f x ∈ fields <-> (f, x) ∈ pairs).
Proof.
  intros Hk Hw Hfresh Hp.
  exists (PutHash db k Hash (fieldSet pairs)),
    (GetHashAsArray (PutHash db k Hash (fieldSet pairs)) k).
  assert (forall f x,
    mkField f x ∈ GetHashAsArray (PutHash db k Hash (fieldSet pairs)) k <->
    fieldSet pairs !! f = Some x) as Hin.
  { intros f x. rewrite elem_of_GetHashAsArray, lookup_PutHash_field by done.
    destruct (fieldSet pairs !! f) as [y|]; [done|].
    destruct (db !! encodeFieldKey k f) as [y|] eqn:E; [|done].
    destruct Hfresh. exists f. by rewrite E. }
  split; [by rewrite hmset_eq, Hw|].
  split; [apply hgetall_eq, Has_PutHash|].
  split; [by apply NoDup_GetHashAsArray|]. split; [done|].
  intros Hnd f x. by rewrite Hin, fieldSet_lookup.
Qed.

Lemma hmset_hgetall_roundtrip_witness :
  exists db1 fields,
    hmset ("k" :: flatten [("f1", "v1"); ("f2", "v2")]) ∅ = Some (OkSimpleString, db1) /\
    hgetall ["k"] db1 = Some (Array (flatReply fields), db1) /\
    NoDup fields /\
    (forall f x, mkField f x ∈ fields <->
                 fieldSet [("f1", "v1"); ("f2", "v2")] !! f = Some x) /\
    (NoDup ([("f1", "v1"); ("f2", "v2")].*1) ->
     forall f x, mkField f x ∈ fields <-> (f, x) ∈ [("f1", "v1"); ("f2", "v2")]).
Proof.
  apply (hmset_hgetall_roundtrip ∅ "k" [("f1", "v1"); ("f2", "v2")]).
  - reflexivity.
  - reflexivity.
  - intros [f [y Hf]]. by rewrite lookup_empty in Hf.
  - done.
Defined.

(** C5, as stated, fails in two ways. For a key that holds the separator
    byte the field names come back mis-split: after [hmset "a|b" "c" "v"],
    [hgetall "a|b"] replies the field "b|c". And the fields a key already
    holds come back along with those of the multi-set. *)
Lemma hmset_hgetall_counterexample :
  fst <$> session [hmset ["a|b"; "c"; "v"]; hgetall ["a|b"]] ∅ =
    Some [OkSimpleString; Array [BulkString "b|c"; BulkString "v"]] /\
  fst <$> session [hset ["k"; "old"; "x"]; hmset ["k"; "f"; "v"]; hgetall ["k"]] ∅ =
    Some [OneInteger; OkSimpleString;
          Array [BulkString "f"; BulkString "v"; BulkString "old"; BulkString "x"]].
Proof. split; vm_compute; reflexivity. Qed.

(** ** Metadata and field entries *)

Lemma metaConsistent_PutHash (db : Store) (k : string) (hash : gmap string string) :
  sepFree k -> hash <> ∅ -> metaConsistent db ->
  metaConsistent (PutHash db k Hash hash).
Proof.
  intros Hk Hne Hc k' Hk'. destruct (decide (k = k')) as [<-|Hkk].
  - split; intros _; [|apply Has_PutHash].
    apply map_choose in Hne as (f & x & Hf). exists f.
    by rewrite lookup_PutHash_field, Hf.
  - unfold isHash. rewrite Has_PutHash_ne by done.
    etransitivity; [apply (Hc k' Hk')|]. unfold hasField.
    apply exist_proper. intros f'. rewrite lookup_PutHash_other; [done|..].
    + intros H. symmetry in H. by apply meta_ne_field in H.
    + intros f _ H. by apply encodeFieldKey_sep_inj in H as [-> _].
Qed.

Lemma lookup_DeleteFields_other (db : Store) (k : string) (fields : list string)
    (x : string) :
  x <> encodeMetaKey k -> (forall f, x <> encodeFieldKey k f) ->
  DeleteFields db k fields !! x = db !! x.
Proof.
  intros Hm Hf. unfold DeleteFields.
  assert (ldb_delete db (encodeFieldKey k <$> fields) !! x = db !! x) as H1.
  { rewrite lookup_ldb_delete, decide_False; [done|].
    intros (f & -> & _)%list_elem_of_fmap. by apply (Hf f). }
  destruct (Iterator _ _); [|done].
  rewrite lookup_ldb_delete, decide_False; [done|].
  by intros ->%list_elem_of_singleton.
Qed.

Lemma DeleteFields_cases (db : Store) (k : string) (fields : list string) :
  let db1 := ldb_delete db (encodeFieldKey k <$> fields) in
  (~ hasField db1 k /\ DeleteFields db k fields = delete (encodeMetaKey k) db1) \/
  (hasField db1 k /\ DeleteFields db k fields = db1).
Proof.
  intros db1. unfold DeleteFields. fold db1.
  destruct (Iterator db1 (encodeFieldKey k EmptyString)) as [|e l] eqn:E.
  - left. split; [by apply Iterator_nil_hasField|done].
  - right. split; [|done]. destruct e as [x y].
    assert ((x, y) ∈ Iterator db1 (encodeFieldKey k EmptyString)) as Hin
      by (rewrite E; left).
    apply elem_of_Iterator in Hin as [Hx [f ->]%HasPrefix_field].
    exists f. by rewrite Hx.
Qed.

Lemma metaConsistent_DeleteFields (db : Store) (k : string) (fields : list string) :
  sepFree k -> metaConsistent db -> metaConsistent (DeleteFields db k fields).
Proof.
  intros Hk Hc k' Hk'. destruct (decide (k = k')) as [<-|Hkk].
  - destruct (DeleteFields_cases db k fields) as [[Hn ->]|[Hy ->]].
    + split.
      * unfold isHash, Has. by rewrite lookup_delete_eq.
      * intros [f Hf]. destruct Hn. exists f.
        by rewrite lookup_delete_ne in Hf by apply meta_ne_field.
    + split; [done|]. intros _. unfold isHash, Has.
      rewrite lookup_ldb_delete, decide_False.
      * apply (Hc k Hk). destruct Hy as [f Hf]. exists f.
        rewrite lookup_ldb_delete in Hf. by case_decide; [destruct Hf|].
      * intros (f & H & _)%list_elem_of_fmap. by apply meta_ne_field in H.
  - assert (forall x, x = encodeMetaKey k' \/ (exists f', x = encodeFieldKey k' f') ->
            DeleteFields db k fields !! x = db !! x) as Hsame.
    { intros x Hx. apply lookup_DeleteFields_other.
      - destruct Hx as [->|[f' ->]].
        + intros H. by apply (inj _) in H.
        + intros H. symmetry in H. by apply meta_ne_field in H.
      - intros f. destruct Hx as [->|[f' ->]].
        + apply meta_ne_field.
        + intros H. by apply encodeFieldKey_sep_inj in H as [-> _]. }
    unfold isHash, Has. rewrite Hsame by (by left).
    etransitivity; [apply (Hc k' Hk')|]. unfold hasField.
    apply exist_proper. intros f'. rewrite Hsame; [done|]. right. eauto.
Qed.


Section Invariant.
Variable float64 : Type.
Variable ParseFloat : string -> option float64.
Variable fadd : float64 -> float64 -> float64.
Variable fzero : float64.
Variable FormatFloat : float64 -> string.

Local Abbreviation handle := (handler float64 ParseFloat fadd fzero FormatFloat).

(** What a handler may do to the database: nothing, one [PutHash] of a
    non-empty field map on its key, or one [DeleteFields] on its key. *)
Lemma handler_store_shape (c : Cmd) (v : Args) (db db' : Store) (r : Reply) :
  handle c v db = Some (r, db') ->
  db' = db \/
  exists k, v !! 0%nat = Some k /\
    ((exists hash, hash <> ∅ /\ db' = PutHash db k Hash hash) \/
     (exists fields, db' = DeleteFields db k fields)).
Proof.
  destruct c; simpl.
  10: { (* hmset *)
    intros H.
    destruct (Nat.leb_spec (length v) 1) as [Hl|Hl];
      [unfold hmset in H; apply Nat.leb_le in Hl; rewrite Hl in H; left; by simplify_eq/=|].
    destruct (Nat.eq_dec (length v mod 2)%nat 1%nat) as [Hodd|Hodd].
    - destruct (odd_args_flatten v Hl Hodd) as (k & pairs & -> & Hp).
      rewrite hmset_eq in H by done. destruct (wrongType _); simplify_eq; [by left|].
      right. exists k. split; [done|]. left. eexists. split; [|done].
      by apply fieldSet_nonempty.
    - unfold hmset in H. apply Nat.eqb_neq in Hodd. rewrite Hodd, orb_true_r in H.
      left. by simplify_eq. }
  all: destruct v as [|k [|f [|d rest]]];
    unfold hdel, hexists, hget, hgetall, hincrby, hincrbyfloat, hkeys,
      hlen, hmget, hset, hsetnx, hstrlen, hvals; hsimpl;
    repeat case_match; intros; simplify_eq; try (by left);
    right; exists k; (split; [done|]);
    try (left; eexists; split; [|done]; apply insert_non_empty);
    try (right; eexists; done).
Qed.

Lemma handler_metaConsistent (c : Cmd) (v : Args) (db db' : Store) (r : Reply) :
  handle c v db = Some (r, db') ->
  (forall k, v !! 0%nat = Some k -> sepFree k) ->
  metaConsistent db -> metaConsistent db'.
Proof.
  intros H Hk Hc.
  apply handler_store_shape in H
    as [->|(k & Hv & [(hash & Hne & ->)|(fields & ->)])].
  - done.
  - apply metaConsistent_PutHash; auto.
  - apply metaConsistent_DeleteFields; auto.
Qed.

(** Along a whole session on separator-free keys, started on a consistent
    database (the empty one, say), every database reached is consistent. *)
Lemma session_metaConsistent (cmds : list (Store -> Outcome)) (db db' : Store)
    (rs : list Reply) :
  Forall (fun h => exists c v, h = handle c v /\
                   forall k, v !! 0%nat = Some k -> sepFree k) cmds ->
  session cmds db = Some (rs, db') ->
  metaConsistent db -> metaConsistent db'.
Proof.
  intros Hall. revert db rs. induction Hall as [|h cmds (c & v & -> & Hk) _ IH];
    intros db rs H Hc; simpl in H.
  - by simplify_eq.
  - destruct (handle c v db) as [[r db1]|] eqn:E; [|done].
    destruct (session cmds db1) as [[rs' db2]|] eqn:E'; [|done].
    simplify_eq. eapply IH; [done|]. by eapply handler_metaConsistent.
Qed.


End Invariant.

Lemma metaConsistentAll_empty : metaConsistentAll ∅.
Proof.
  intros k. unfold isHash, hasField, Has. rewrite lookup_empty. split; [done|].
  intros [f [y Hf]]. by rewrite lookup_empty in Hf.
Qed.



(** * Further properties of the storage layer and the handlers *)

(** ** The field-key encoding *)

(** X1: the encoded key of a field starts with the scan prefix of its
    record key, two fields of one record key never share an encoded
    key, and for a record key without separator byte the field name read
    back after the first ['|'] is the field that was encoded. *)
Theorem encodeFieldKey_scan_decode (k f f' : string) :
  HasPrefix (encodeFieldKey k f) (encodeFieldKey k EmptyString) = true /\
  (encodeFieldKey k f = encodeFieldKey k f' -> f = f') /\
  (sepFree k -> fieldOf (encodeFieldKey k f) = f).
Proof.
  split; [|split].
  - apply HasPrefix_field. eauto.
  - apply (inj (encodeFieldKey k)).
  - apply fieldOf_encode.
Qed.

Lemma encodeFieldKey_scan_decode_witness :
  sepFree "user:1" /\ fieldOf (encodeFieldKey "user:1" "na|me") = "na|me"%string.
Proof.
  split; [reflexivity|].
  apply (encodeFieldKey_scan_decode "user:1" "na|me" "na|me"). reflexivity.
Defined.

(** ** What the handlers leave alone *)

Section Frames.
Variable float64 : Type.
Variable ParseFloat : string -> option float64.
Variable fadd : float64 -> float64 -> float64.
Variable fzero : float64.
Variable FormatFloat : float64 -> string.

Local Abbreviation handle := (handler float64 ParseFloat fadd fzero FormatFloat).

(** X2: the handlers that take the read lock ([hexists], [hget],
    [hgetall], [hkeys], [hlen], [hmget], [hstrlen], [hvals]) never change
    the database, whatever their arguments and whatever they reply. *)
Theorem read_locked_handlers_write_nothing (c : Cmd) (v : Args)
    (db db' : Store) (r : Reply) :
  readLocked c = true -> handle c v db = Some (r, db') -> db' = db.
Proof.
  intros Hc. destruct c; try discriminate Hc; simpl;
    destruct v as [|k [|f rest]];
    unfold hexists, hget, hgetall, hkeys, hlen, hmget, hstrlen, hvals; hsimpl;
    repeat case_match; intros; by simplify_eq.
Qed.

(** X3: a handler run on the record key [k] leaves the metadata entry of
    every other record key as it is, and, when both keys are free of the
    separator byte, every field entry of the other key too. *)
Theorem other_keys_untouched (c : Cmd) (v : Args) (db db' : Store) (r : Reply)
    (k k' : string) :
  handle c v db = Some (r, db') -> v !! 0%nat = Some k -> k <> k' ->
  Has db' k' = Has db k' /\
  (sepFree k -> sepFree k' ->
   forall f, db' !! encodeFieldKey k' f = db !! encodeFieldKey k' f).
Proof.
  intros H Hv Hne.
  apply handler_store_shape in H
    as [->|(k0 & Hv0 & [(hash & _ & ->)|(fields & ->)])]; [done|..];
    rewrite Hv in Hv0; injection Hv0 as <-.
  - split; [by apply Has_PutHash_ne|]. intros Hk Hk' f.
    apply lookup_PutHash_other.
    + intros E. symmetry in E. by apply meta_ne_field in E.
    + intros f0 _ E. apply encodeFieldKey_sep_inj in E as [E _]; auto.
  - split.
    + unfold Has. rewrite lookup_DeleteFields_other; [done|..].
      * intros E. by apply (inj _) in E.
      * intros f0. apply meta_ne_field.
    + intros Hk Hk' f. apply lookup_DeleteFields_other.
      * intros E. symmetry in E. by apply meta_ne_field in E.
      * intros f0 E. apply encodeFieldKey_sep_inj in E as [E _]; auto.
Qed.

End Frames.

Lemma read_locked_handlers_write_nothing_witness :
  let db := <[encodeFieldKey "k" "f" := "v"%string]>
              (<[encodeMetaKey "k" := encodeMetadata Hash]> (∅ : Store)) in
  readLocked HGETALL = true /\
  handler Z ParseInt Z.add 0 FormatInt HGETALL ["k"] db =
    Some (Array [BulkString "f"; BulkString "v"], db) /\
  db = db.
Proof.
  intros db. split; [reflexivity|].
  assert (handler Z ParseInt Z.add 0 FormatInt HGETALL ["k"] db =
          Some (Array [BulkString "f"; BulkString "v"], db)) as H
    by (vm_compute; reflexivity).
  split; [exact H|].
  apply (read_locked_handlers_write_nothing Z ParseInt Z.add 0 FormatInt
           HGETALL ["k"] db db (Array [BulkString "f"; BulkString "v"]));
    [reflexivity|exact H].
Defined.

Lemma other_keys_untouched_witness :
  let db := <[encodeFieldKey "a" "f" := "v"%string]>
              (<[encodeMetaKey "a" := encodeMetadata Hash]> (∅ : Store)) in
  let db' := <[encodeFieldKey "b" "g" := "w"%string]>
               (<[encodeMetaKey "b" := encodeMetadata Hash]> db) in
  Has db' "a" = Has db "a" /\
  forall f, db' !! encodeFieldKey "a" f = db !! encodeFieldKey "a" f.
Proof.
  intros db db'.
  destruct (other_keys_untouched Z ParseInt Z.add 0 FormatInt HSET
              ["b"; "g"; "w"] db db' OneInteger "b" "a") as [H1 H2].
  - reflexivity.
  - reflexivity.
  - done.
  - split; [exact H1|]. apply H2; reflexivity.
Defined.

(** ** Set-if-absent, multi-get and the enumerating commands *)

(** X4: on a key that is absent or of the hash type, [hsetnx] writes the
    value and replies 1 when the field holds no non-empty value, and
    replies 0 without touching the database when it does; so after a
    first [hsetnx] with a non-empty value a second one replies 0 and
    [hget] still replies the first value. *)
Theorem hsetnx_keeps_first_value (db : Store) (k f v v2 : string) :
  wrongType (Has db k) = false ->
  (ldb_get db (encodeFieldKey k f) <> EmptyString ->
   hsetnx [k; f; v] db = Some (ZeroInteger, db)) /\
  (ldb_get db (encodeFieldKey k f) = EmptyString -> v <> EmptyString ->
   exists db1,
     db1 !! encodeFieldKey k f = Some v /\
     session [hsetnx [k; f; v]; hsetnx [k; f; v2]; hget [k; f]] db =
       Some ([OneInteger; ZeroInteger; BulkString v], db1)).
Proof.
  intros Hw. split.
  - intros Hne. rewrite hsetnx_eq by done.
    destruct (len _ =? 0)%nat eqn:E; [by apply len_0 in E|done].
  - intros Hcur Hv. eexists. split; [apply lookup_insert_eq|].
    unfold session. rewrite hsetnx_eq, Hcur by done. simpl len. simpl Nat.eqb.
    cbv beta iota.
    rewrite hsetnx_eq by apply wrongType_isHash, isHash_put.
    rewrite ldb_get_insert_eq.
    destruct (len v =? 0)%nat eqn:E; [by apply len_0 in E|].
    cbv beta iota. rewrite hget_eq by apply isHash_put.
    rewrite ldb_get_insert_eq, E. done.
Qed.

Lemma hsetnx_keeps_first_value_witness :
  wrongType (Has ∅ "k") = false /\
  exists db1,
    db1 !! encodeFieldKey "k" "f" = Some "v"%string /\
    session [hsetnx ["k"; "f"; "v"]; hsetnx ["k"; "f"; "w"]; hget ["k"; "f"]] ∅ =
      Some ([OneInteger; ZeroInteger; BulkString "v"], db1).
Proof.
  split; [reflexivity|].
  destruct (hsetnx_keeps_first_value ∅ "k" "f" "v" "w") as [_ H];
    [reflexivity|].
  apply H; done.
Defined.

Lemma foldl_snoc_fmap {A B : Type} (g : A -> B) (l : list A) (acc : list B) :
  foldl (fun arr a => (arr ++ [g a])%list) acc l = (acc ++ (g <$> l))%list.
Proof.
  revert acc. induction l as [|a l IH]; intros acc; simpl.
  - by rewrite app_nil_r.
  - rewrite IH, <- app_assoc. done.
Qed.

Lemma hmget_fold (l : list Field) (acc : list Reply) :
  foldl (fun arr field =>
           if (len (Value field) =? 0)%nat then (arr ++ [NilBulkString])%list
           else (arr ++ [BulkString (Value field)])%list) acc l =
  (acc ++ ((fun fd => bulkOrNil (Value fd)) <$> l))%list.
Proof.
  rewrite <- foldl_snoc_fmap. revert acc.
  induction l as [|fd l IH]; intros acc; [done|]. simpl. rewrite <- IH.
  unfold bulkOrNil. by destruct (len (Value fd) =? 0)%nat.
Qed.

Lemma hmget_eq (db : Store) (k : string) (fields : list string) :
  fields <> [] -> wrongType (Has db k) = false ->
  hmget (k :: fields) db =
  Some (Array ((fun f => bulkOrNil (ldb_get db (encodeFieldKey k f))) <$> fields), db).
Proof.
  intros Hf Hw. unfold hmget. destruct fields as [|f fields]; [done|].
  hsimpl. rewrite Hw. unfold GetFieldsAsArray.
  by rewrite hmget_fold, <- list_fmap_compose.
Qed.

(** X5: [hmget] with one or more fields on a key that is absent or of the
    hash type replies one item per requested field, in request order: the
    stored value, or the nil bulk string for a field without a non-empty
    value; the database is unchanged. After an [hmset] the items are the
    values just written, and for a field the [hmset] did not name the
    value it held before. *)
Theorem hmget_in_request_order (db : Store) (k : string)
    (pairs : list (string * string)) (fields : list string) :
  fields <> [] -> wrongType (Has db k) = false ->
  (exists items,
     hmget (k :: fields) db = Some (Array items, db) /\
     length items = length fields /\
     forall i f, fields !! i = Some f ->
       items !! i = Some (bulkOrNil (ldb_get db (encodeFieldKey k f)))) /\
  (pairs <> [] ->
   exists db1,
     session [hmset (k :: flatten pairs); hmget (k :: fields)] db =
       Some ([OkSimpleString; Array (bulkOrNil ∘ readsAfter db k pairs <$> fields)],
             db1)).
Proof.
  intros Hf Hw. split.
  - eexists. split; [by apply hmget_eq|]. split; [by rewrite length_fmap|].
    intros i f Hi. by rewrite list_lookup_fmap, Hi.
  - intros Hp. eexists. unfold session. rewrite hmset_eq, Hw by done.
    cbv beta iota. rewrite hmget_eq; [|done|apply wrongType_isHash, Has_PutHash].
    cbv beta iota. do 5 f_equal. apply list_fmap_ext. intros i f _. simpl.
    unfold readsAfter, ldb_get. rewrite lookup_PutHash_field.
    by destruct (fieldSet pairs !! f).
Qed.

Lemma hmget_in_request_order_witness :
  exists db1,
    session [hmset ("k" :: flatten [("f1", "v1"); ("f2", "v2")]);
             hmget ["k"; "f1"; "f2"; "f3"]] ∅ =
    Some ([OkSimpleString;
           Array (bulkOrNil ∘ readsAfter ∅ "k" [("f1", "v1"); ("f2", "v2")]
                  <$> ["f1"; "f2"; "f3"])], db1) /\
    bulkOrNil ∘ readsAfter ∅ "k" [("f1", "v1"); ("f2", "v2")] <$> ["f1"; "f2"; "f3"] =
    [BulkString "v1"; BulkString "v2"; NilBulkString].
Proof.
  destruct (hmget_in_request_order ∅ "k" [("f1", "v1"); ("f2", "v2")]
              ["f1"; "f2"; "f3"]) as [_ H]; [done|reflexivity|].
  destruct H as [db1 H]; [done|]. exists db1. split; [exact H|].
  vm_compute. reflexivity.
Defined.

Lemma GetFieldNames_Keys (db : Store) (k : string) :
  GetFieldNames db k = Key <$> GetHashAsArray db k.
Proof.
  unfold GetFieldNames, GetHashAsArray. by rewrite <- list_fmap_compose.
Qed.

(** X6: on a key of the hash type [hgetall], [hkeys], [hvals] and [hlen]
    read one and the same enumeration of the record: [hkeys] replies its
    field names and [hvals] its values in the order in which [hgetall]
    replies the pairs, and [hlen] replies its length, half the length of
    the [hgetall] reply. *)
Theorem enumerations_agree (db : Store) (k : string) :
  isHash db k ->
  exists fields,
    hgetall [k] db = Some (Array (flatReply fields), db) /\
    hkeys [k] db = Some (Array (BulkString ∘ Key <$> fields), db) /\
    hvals [k] db = Some (Array (BulkString ∘ Value <$> fields), db) /\
    hlen [k] db = Some (Integer (Z.of_nat (length fields)), db) /\
    length (flatReply fields) = (2 * length fields)%nat.
Proof.
  intros Hh. exists (GetHashAsArray db k).
  pose proof (wrongType_isHash _ _ Hh) as Hw.
  assert (negb (Has db k).1 = false) as Hn by (by rewrite Hh).
  split; [by apply hgetall_eq|].
  split; [|split; [|split]].
  - unfold hkeys. hsimpl. rewrite Hn, Hw, GetFieldNames_Keys.
    by rewrite (foldl_snoc_fmap BulkString), <- list_fmap_compose.
  - unfold hvals. hsimpl. rewrite Hn, Hw.
    by rewrite (foldl_snoc_fmap (fun fd => BulkString (Value fd))).
  - unfold hlen. hsimpl. rewrite Hn, Hw, GetFieldNames_Keys.
    by rewrite length_fmap.
  - unfold flatReply. induction (GetHashAsArray db k) as [|fd l IH]; [done|].
    simpl. rewrite IH. lia.
Qed.

Lemma enumerations_agree_witness :
  let db := <[encodeFieldKey "k" "f" := "v"%string]>
              (<[encodeMetaKey "k" := encodeMetadata Hash]> (∅ : Store)) in
  isHash db "k" /\
  exists fields,
    hgetall ["k"] db = Some (Array (flatReply fields), db) /\
    hkeys ["k"] db = Some (Array (BulkString ∘ Key <$> fields), db) /\
    hvals ["k"] db = Some (Array (BulkString ∘ Value <$> fields), db) /\
    hlen ["k"] db = Some (Integer (Z.of_nat (length fields)), db) /\
    length (flatReply fields) = (2 * length fields)%nat.
Proof.
  intros db. split; [reflexivity|].
  apply (enumerations_agree db "k"). reflexivity.
Defined.

Lemma NoDup_GetFieldNames (db : Store) (k : string) :
  sepFree k -> NoDup (GetFieldNames db k).
Proof.
  intros Hk. unfold GetFieldNames.
  apply NoDup_fmap_2_strong; [|apply NoDup_Iterator].
  intros [k1 y1] [k2 y2] H1 H2 Hf.
  pose proof H1 as H1'. pose proof H2 as H2'.
  apply elem_of_Iterator in H1 as [_ [f1 ->]%HasPrefix_field].
  apply elem_of_Iterator in H2 as [_ [f2 ->]%HasPrefix_field].
  simpl in Hf. rewrite !fieldOf_encode in Hf by done. subst f2.
  f_equal. by eapply Iterator_functional.
Qed.

(** X7: for a record key without separator byte, [GetFieldNames] and
    [GetHashAsArray] list exactly the field entries the store holds for
    the key, each once: a field is listed if and only if its entry is
    stored, with the stored value. *)
Theorem enumeration_exact (db : Store) (k : string) :
  sepFree k ->
  NoDup (GetFieldNames db k) /\
  (forall f, f ∈ GetFieldNames db k <-> is_Some (db !! encodeFieldKey k f)) /\
  (forall f x, mkField f x ∈ GetHashAsArray db k <->
               db !! encodeFieldKey k f = Some x).
Proof.
  intros Hk. split; [|split].
  - by apply NoDup_GetFieldNames.
  - intros f. rewrite GetFieldNames_Keys, list_elem_of_fmap. split.
    + intros ([f' x] & -> & Hin). apply elem_of_GetHashAsArray in Hin; [|done].
      simpl. by rewrite Hin.
    + intros [x Hx]. exists (mkField f x). split; [done|].
      by apply elem_of_GetHashAsArray.
  - intros f x. by apply elem_of_GetHashAsArray.
Qed.

Lemma enumeration_exact_witness :
  let db := <[encodeFieldKey "k" "f" := "v"%string]>
              (<[encodeMetaKey "k" := encodeMetadata Hash]> (∅ : Store)) in
  sepFree "k" /\ "f"%string ∈ GetFieldNames db "k".
Proof.
  intros db. split; [reflexivity|].
  apply (enumeration_exact db "k"); [reflexivity|]. by eexists.
Defined.

(** ** Counting fields *)

Lemma Iterator_split (db : Store) (p x y : string) :
  db !! x = Some y -> HasPrefix x p = true ->
  Iterator db p ≡ₚ (x, y) :: Iterator (delete x db) p.
Proof.
  intros Hx Hp. apply NoDup_Permutation.
  - apply NoDup_Iterator.
  - apply NoDup_cons. split; [|apply NoDup_Iterator].
    intros [H _]%elem_of_Iterator. by rewrite lookup_delete_eq in H.
  - intros [a b]. rewrite elem_of_cons, !elem_of_Iterator. split.
    + intros [Ha Hpa]. destruct (decide (a = x)) as [->|Hne].
      * left. congruence.
      * right. by rewrite lookup_delete_ne.
    + intros [[= -> ->]|[Ha Hpa]]; [done|].
      destruct (decide (a = x)) as [->|Hne];
        [by rewrite lookup_delete_eq in Ha|].
      by rewrite lookup_delete_ne in Ha.
Qed.

Lemma Iterator_insert_other (db : Store) (p x y : string) :
  HasPrefix x p = false -> Iterator (<[x := y]> db) p ≡ₚ Iterator db p.
Proof.
  intros Hp. apply NoDup_Permutation; try apply NoDup_Iterator.
  intros [a b]. rewrite !elem_of_Iterator.
  destruct (decide (a = x)) as [->|Hne].
  - rewrite Hp. split; intros [_ ?]; done.
  - by rewrite lookup_insert_ne.
Qed.

Lemma Iterator_delete_None (db : Store) (p x : string) :
  db !! x = None -> Iterator (delete x db) p = Iterator db p.
Proof. intros H. by rewrite delete_id. Qed.

Lemma HasPrefix_meta (k k' : string) :
  HasPrefix (encodeMetaKey k') (encodeFieldKey k EmptyString) = false.
Proof.
  destruct (HasPrefix _ _) eqn:E; [|done].
  apply HasPrefix_field in E as [f E]. by apply meta_ne_field in E.
Qed.

Lemma length_Iterator_put (db : Store) (k f x : string) :
  length (Iterator (<[encodeFieldKey k f := x]>
                      (<[encodeMetaKey k := encodeMetadata Hash]> db))
            (encodeFieldKey k EmptyString)) =
  match db !! encodeFieldKey k f with
  | Some _ => length (Iterator db (encodeFieldKey k EmptyString))
  | None => S (length (Iterator db (encodeFieldKey k EmptyString)))
  end.
Proof.
  set (p := encodeFieldKey k EmptyString).
  set (db1 := <[encodeMetaKey k := encodeMetadata Hash]> db).
  assert (HasPrefix (encodeFieldKey k f) p = true) as Hp
    by (apply HasPrefix_field; eauto).
  rewrite (Iterator_split _ p (encodeFieldKey k f) x)
    by (done || apply lookup_insert_eq).
  rewrite delete_insert_eq. simpl.
  assert (db1 !! encodeFieldKey k f = db !! encodeFieldKey k f) as Hl
    by (unfold db1; apply lookup_insert_ne, meta_ne_field).
  assert (length (Iterator db1 p) = length (Iterator db p)) as Hlen
    by (unfold db1; by rewrite Iterator_insert_other by apply HasPrefix_meta).
  destruct (db !! encodeFieldKey k f) as [y|] eqn:E.
  - rewrite <- Hlen, (Iterator_split db1 p (encodeFieldKey k f) y) by done. done.
  - by rewrite Iterator_delete_None, Hlen.
Qed.

(** X8: on a key that is absent or of the hash type, [hset] makes the
    number of fields [hlen] replies one more than the number of field
    entries the key held when the field had no entry, and leaves it as it
    was when the field had one (also one holding the empty value). *)
Theorem hset_then_hlen (db : Store) (k f x : string) :
  wrongType (Has db k) = false ->
  exists r db1,
    hset [k; f; x] db = Some (r, db1) /\
    hlen [k] db1 =
      Some (Integer (Z.of_nat
              (match db !! encodeFieldKey k f with
               | Some _ => length (GetFieldNames db k)
               | None => S (length (GetFieldNames db k))
               end)), db1).
Proof.
  intros Hw. eexists _, _. split; [by apply hset_eq|].
  pose proof (isHash_put db k f x) as Hh.
  unfold hlen. hsimpl. rewrite (wrongType_isHash _ _ Hh), Hh. hsimpl.
  do 3 f_equal. unfold GetFieldNames. rewrite !length_fmap, length_Iterator_put.
  by destruct (db !! encodeFieldKey k f).
Qed.

Lemma hset_then_hlen_witness :
  wrongType (Has ∅ "k") = false /\
  exists r db1,
    hset ["k"; "f"; "v"] ∅ = Some (r, db1) /\
    hlen ["k"] db1 = Some (Integer 1, db1).
Proof.
  split; [reflexivity|].
  destruct (hset_then_hlen ∅ "k" "f" "v") as (r & db1 & H1 & H2); [reflexivity|].
  exists r, db1. split; [exact H1|exact H2].
Defined.

(** ** Looking up and deleting fields *)

Lemma foldl_GetFields_lookup (db : Store) (k : string) (fields : list string)
    (m : gmap string string) (f : string) :
  foldl (fun hash field => <[field := ldb_get db (encodeFieldKey k field)]> hash)
    m fields !! f =
  if decide (f ∈ fields) then Some (ldb_get db (encodeFieldKey k f)) else m !! f.
Proof.
  revert m. induction fields as [|g fields IH]; intros m; cbn [foldl].
  - by rewrite decide_False by apply not_elem_of_nil.
  - rewrite IH. destruct (decide (f ∈ fields)) as [Hin|Hnin].
    + rewrite decide_True; [done|]. by apply elem_of_cons; right.
    + destruct (decide (g = f)) as [->|Hne].
      * rewrite lookup_insert_eq, decide_True; [done|]. by apply elem_of_cons; left.
      * rewrite lookup_insert_ne by done. rewrite decide_False; [done|].
        intros [->|?]%elem_of_cons; done.
Qed.

Lemma GetFields_lookup (db : Store) (k : string) (fields : list string) (f : string) :
  GetFields db k fields !! f =
  if decide (f ∈ fields) then Some (ldb_get db (encodeFieldKey k f)) else None.
Proof. unfold GetFields. by rewrite foldl_GetFields_lookup, lookup_empty. Qed.

(** X9: [GetFields] returns a map over exactly the requested fields, and
    [GetFieldsAsArray] a list of the requested fields in request order;
    both give a field its stored value, and the empty value when the field
    has no entry, so that a missing entry and a stored empty value look
    the same. *)
Theorem GetFields_requested (db : Store) (k : string) (fields : list string) :
  (forall f, f ∈ fields ->
     GetFields db k fields !! f = Some (ldb_get db (encodeFieldKey k f))) /\
  (forall f, f ∉ fields -> GetFields db k fields !! f = None) /\
  Key <$> GetFieldsAsArray db k fields = fields /\
  (forall fd, fd ∈ GetFieldsAsArray db k fields ->
     GetFields db k fields !! Key fd = Some (Value fd)) /\
  (forall f, db !! encodeFieldKey k f = None \/
             db !! encodeFieldKey k f = Some EmptyString ->
     ldb_get db (encodeFieldKey k f) = EmptyString).
Proof.
  split; [|split; [|split; [|split]]].
  - intros f Hf. by rewrite GetFields_lookup, decide_True.
  - intros f Hf. by rewrite GetFields_lookup, decide_False.
  - unfold GetFieldsAsArray. rewrite <- list_fmap_compose.
    apply list_eq. intros i. rewrite list_lookup_fmap.
    by destruct (fields !! i).
  - intros fd (f & -> & Hf)%list_elem_of_fmap. simpl.
    by rewrite GetFields_lookup, decide_True.
  - intros f [H|H]; unfold ldb_get; by rewrite H.
Qed.

Lemma GetFields_requested_witness :
  "f"%string ∈ ["f"; "g"] /\
  GetFields ∅ "k" ["f"; "g"] !! "f"%string = Some (ldb_get ∅ (encodeFieldKey "k" "f")).
Proof.
  split; [by left|]. apply (GetFields_requested ∅ "k" ["f"; "g"]). by left.
Defined.

Lemma hdel_count (db : Store) (k : string) (fields : list string) :
  map_fold (fun (_ : string) value n => if (len value =? 0)%nat then n else S n)
    0%nat (GetFields db k fields) =
  length (nonEmptyFields db k fields).
Proof.
  rewrite map_fold_foldr.
  assert (map_to_list (GetFields db k fields) ≡ₚ
          (fun f => (f, ldb_get db (encodeFieldKey k f))) <$> remove_dups fields)
    as Hperm.
  { apply NoDup_Permutation.
    - apply NoDup_map_to_list.
    - apply NoDup_fmap_2; [by intros f g [= ->]|apply NoDup_remove_dups].
    - intros [f y]. rewrite elem_of_map_to_list, GetFields_lookup, list_elem_of_fmap.
      setoid_rewrite elem_of_remove_dups. split.
      + case_decide; [|done]. intros [= <-]. eauto.
      + intros (g & [= -> ->] & Hg). by rewrite decide_True. }
  set (cnt := uncurry (fun (_ : string) (value : string) (n : nat) =>
                         if (len value =? 0)%nat then n else S n)).
  assert (forall a1 a2 b, cnt a1 (cnt a2 b) = cnt a2 (cnt a1 b)) as Hc.
  { intros [f1 y1] [f2 y2] n. unfold cnt. simpl.
    by destruct (len y1 =? 0)%nat, (len y2 =? 0)%nat. }
  rewrite (foldr_permutation_proper (=) cnt 0%nat Hc _ _ Hperm).
  clear Hperm. unfold nonEmptyFields.
  induction (remove_dups fields) as [|f l IH]; [done|].
  rewrite fmap_cons, filter_cons. cbn [foldr]. rewrite IH. unfold cnt at 1. simpl.
  destruct (len _ =? 0)%nat eqn:E.
  - apply len_0 in E. by rewrite decide_False by (by intros ?).
  - rewrite decide_True; [done|]. intros H. apply len_0 in H. congruence.
Qed.

Lemma lookup_DeleteFields_field (db : Store) (k : string)
    (fields : list string) (f : string) :
  DeleteFields db k fields !! encodeFieldKey k f =
  if decide (f ∈ fields) then None else db !! encodeFieldKey k f.
Proof.
  assert (ldb_delete db (encodeFieldKey k <$> fields) !! encodeFieldKey k f =
          if decide (f ∈ fields) then None else db !! encodeFieldKey k f) as H1.
  { rewrite lookup_ldb_delete.
    destruct (decide (f ∈ fields)) as [Hin|Hnin].
    - rewrite decide_True; [done|]. by apply list_elem_of_fmap_2.
    - rewrite decide_False; [done|].
      intros (g & E & Hg)%list_elem_of_fmap. apply (inj _) in E. by subst. }
  destruct (DeleteFields_cases db k fields) as [[_ ->]|[_ ->]]; [|done].
  by rewrite lookup_delete_ne by apply meta_ne_field.
Qed.

Lemma DeleteFields_isHash (db : Store) (k : string) (fields : list string) :
  isHash db k ->
  isHash (DeleteFields db k fields) k <-> hasField (DeleteFields db k fields) k.
Proof.
  intros Hh. destruct (DeleteFields_cases db k fields) as [[Hn ->]|[Hy ->]].
  - split.
    + unfold isHash, Has. by rewrite lookup_delete_eq.
    + intros [f Hf']. destruct Hn. exists f.
      by rewrite lookup_delete_ne in Hf' by apply meta_ne_field.
  - split; [done|]. intros _. unfold isHash, Has.
    rewrite lookup_ldb_delete, decide_False; [exact Hh|].
    intros (f & H & _)%list_elem_of_fmap. by apply meta_ne_field in H.
Qed.

Lemma hdel_hash_eq (db : Store) (k : string) (fields : list string) :
  isHash db k -> fields <> [] ->
  hdel (k :: fields) db =
  Some (Integer (Z.of_nat (length (nonEmptyFields db k fields))),
        DeleteFields db k fields).
Proof.
  intros Hh Hf. unfold hdel. destruct fields as [|f fields]; [done|]. hsimpl.
  rewrite (wrongType_isHash _ _ Hh), Hh. hsimpl.
  by rewrite (hdel_count db k (f :: fields)).
Qed.

(** X10: on a key of the hash type [hdel] with one or more fields replies
    the number of distinct requested fields that held a non-empty value
    (never more than the number of fields requested), removes the entry
    of every requested field, keeps every other field entry of the key,
    and leaves the key marked as a hash exactly when a field entry is left. *)
Theorem hdel_counts_and_removes (db : Store) (k : string) (fields : list string) :
  isHash db k -> fields <> [] ->
  exists db1,
    hdel (k :: fields) db =
      Some (Integer (Z.of_nat (length (nonEmptyFields db k fields))), db1) /\
    (length (nonEmptyFields db k fields) <= length fields)%nat /\
    (forall f, f ∈ fields -> db1 !! encodeFieldKey k f = None) /\
    (forall f, f ∉ fields ->
       db1 !! encodeFieldKey k f = db !! encodeFieldKey k f) /\
    (isHash db1 k <-> hasField db1 k).
Proof.
  intros Hh Hf. exists (DeleteFields db k fields).
  split; [|split; [|split; [|split]]].
  - by apply hdel_hash_eq.
  - unfold nonEmptyFields. etransitivity; [apply length_filter|].
    apply submseteq_length, NoDup_submseteq; [apply NoDup_remove_dups|].
    intros f. by rewrite elem_of_remove_dups.
  - intros f Hin. by rewrite lookup_DeleteFields_field, decide_True.
  - intros f Hnin. by rewrite lookup_DeleteFields_field, decide_False.
  - by apply DeleteFields_isHash.
Qed.

Lemma hdel_counts_and_removes_witness :
  let db := <[encodeFieldKey "k" "f1" := "v"%string]>
              (<[encodeMetaKey "k" := encodeMetadata Hash]> (∅ : Store)) in
  isHash db "k" /\
  exists db1,
    hdel ["k"; "f1"; "f2"] db =
      Some (Integer (Z.of_nat (length (nonEmptyFields db "k" ["f1"; "f2"]))), db1) /\
    Z.of_nat (length (nonEmptyFields db "k" ["f1"; "f2"])) = 1 /\
    db1 !! encodeFieldKey "k" "f1" = None.
Proof.
  intros db. split; [reflexivity|].
  destruct (hdel_counts_and_removes db "k" ["f1"; "f2"])
    as (db1 & H1 & _ & H3 & _); [reflexivity|done|].
  exists db1. split; [exact H1|]. split; [vm_compute; reflexivity|].
  apply H3. by left.
Defined.

(** ** Whole-record operations *)

Lemma lookup_DeleteHash (db : Store) (k x : string) :
  DeleteHash db k !! x =
  if decide (x = encodeMetaKey k \/
             HasPrefix x (encodeFieldKey k EmptyString) = true /\ is_Some (db !! x))
  then None else db !! x.
Proof.
  unfold DeleteHash. rewrite lookup_ldb_delete.
  destruct (decide (x ∈ _)) as [Hin|Hnin].
  - rewrite decide_True; [done|].
    apply elem_of_app in Hin as [->%list_elem_of_singleton|Hin]; [by left|].
    apply list_elem_of_fmap in Hin as ([a b] & -> & Hin).
    apply elem_of_Iterator in Hin as [Ha Hp]. right. simpl. by rewrite Ha.
  - case_decide as Hd; [|done]. destruct Hnin. apply elem_of_app.
    destruct Hd as [->|[Hp [y Hy]]]; [left; by apply list_elem_of_singleton|].
    right. apply list_elem_of_fmap. exists (x, y). split; [done|].
    by apply elem_of_Iterator.
Qed.

(** X11: [DeleteHash] removes the metadata entry and every field entry of
    the record key, and nothing else: an entry that is neither the
    metadata entry of the key nor under its scan prefix is kept, so the
    metadata of every other key is, and so are the fields of every other
    key when both keys are free of the separator byte. *)
Theorem DeleteHash_removes_record (db : Store) (k : string) :
  absent (DeleteHash db k) k /\
  ~ hasField (DeleteHash db k) k /\
  (forall x, x <> encodeMetaKey k ->
     HasPrefix x (encodeFieldKey k EmptyString) = false ->
     DeleteHash db k !! x = db !! x) /\
  (forall k', k <> k' -> Has (DeleteHash db k) k' = Has db k') /\
  (forall k' f, k <> k' -> sepFree k -> sepFree k' ->
     DeleteHash db k !! encodeFieldKey k' f = db !! encodeFieldKey k' f).
Proof.
  assert (forall x, x <> encodeMetaKey k ->
            HasPrefix x (encodeFieldKey k EmptyString) = false ->
            DeleteHash db k !! x = db !! x) as Hkeep.
  { intros x Hm Hp. rewrite lookup_DeleteHash, decide_False; [done|].
    intros [?|[Hp' _]]; [done|congruence]. }
  split; [|split; [|split; [done|split]]].
  - unfold absent, Has. rewrite lookup_DeleteHash, decide_True; [done|by left].
  - intros [f [y Hf]]. rewrite lookup_DeleteHash in Hf.
    case_decide as Hd; [by inversion Hf|]. destruct Hd. right.
    split; [apply HasPrefix_field; eauto|by eexists].
  - intros k' Hne. unfold Has. rewrite Hkeep; [done| |apply HasPrefix_meta].
    intros E. by apply (inj _) in E.
  - intros k' f Hne Hk Hk'. apply Hkeep.
    + intros E. symmetry in E. by apply meta_ne_field in E.
    + destruct (HasPrefix _ _) eqn:E; [|done].
      apply HasPrefix_field in E as [f' E].
      apply encodeFieldKey_sep_inj in E as [E _]; auto. congruence.
Qed.

Lemma DeleteHash_removes_record_witness :
  let db := <[encodeFieldKey "b" "g" := "w"%string]>
              (<[encodeMetaKey "b" := encodeMetadata Hash]>
                 (<[encodeFieldKey "a" "f" := "v"%string]>
                    (<[encodeMetaKey "a" := encodeMetadata Hash]> (∅ : Store)))) in
  ("a"%string <> "b"%string /\ sepFree "a" /\ sepFree "b") /\
  DeleteHash db "a" !! encodeFieldKey "b" "g" = db !! encodeFieldKey "b" "g".
Proof.
  intros db. split; [split; [done|split; reflexivity]|].
  apply (DeleteHash_removes_record db "a"); [done|reflexivity|reflexivity].
Defined.

Lemma foldl_GetHash (l : list (string * string)) (m : gmap string string) :
  foldl (fun hash e => <[fieldOf e.1 := e.2]> hash) m l =
  foldl (fun m p => <[p.1 := p.2]> m) m ((fun e => (fieldOf e.1, e.2)) <$> l).
Proof. revert m. induction l as [|e l IH]; intros m; [done|]. simpl. apply IH. Qed.

Lemma GetHash_lookup (db : Store) (k f : string) :
  sepFree k -> GetHash db k !! f = db !! encodeFieldKey k f.
Proof.
  intros Hk. unfold GetHash. rewrite foldl_GetHash.
  set (pairs := (fun e => (fieldOf e.1, e.2)) <$>
                Iterator db (encodeFieldKey k EmptyString)).
  assert (NoDup (pairs.*1)) as Hnd.
  { unfold pairs. rewrite <- list_fmap_compose.
    by apply (NoDup_GetFieldNames db k). }
  assert (forall x, (f, x) ∈ pairs <-> db !! encodeFieldKey k f = Some x) as Hin.
  { intros x. unfold pairs. rewrite list_elem_of_fmap. split.
    - intros ([a b] & [= -> ->] & Hab).
      apply elem_of_Iterator in Hab as [Ha [f' ->]%HasPrefix_field].
      simpl. by rewrite fieldOf_encode.
    - intros Hx. exists (encodeFieldKey k f, x). simpl.
      rewrite fieldOf_encode by done. split; [done|].
      apply elem_of_Iterator. split; [done|]. apply HasPrefix_field. eauto. }
  apply option_eq. intros x.
  rewrite (foldl_insert_lookup pairs ∅ f x Hnd), lookup_empty, Hin.
  split; [intros [?|[_ ?]]; done|by left].
Qed.

(** X12: for a record key without separator byte, [GetHash] returns the
    map from each stored field of the key to its value; right after
    [PutHash] it returns the map that was put, over the fields the key
    held before. *)
Theorem GetHash_PutHash (db : Store) (k : string) (t : ascii)
    (hash : gmap string string) :
  sepFree k ->
  (forall f, GetHash db k !! f = db !! encodeFieldKey k f) /\
  GetHash (PutHash db k t hash) k = hash ∪ GetHash db k /\
  (~ hasField db k -> GetHash (PutHash db k t hash) k = hash).
Proof.
  intros Hk.
  assert (GetHash (PutHash db k t hash) k = hash ∪ GetHash db k) as Hput.
  { apply map_eq. intros f.
    rewrite GetHash_lookup, lookup_PutHash_field, lookup_union by done.
    rewrite GetHash_lookup by done.
    destruct (hash !! f), (db !! encodeFieldKey k f); done. }
  split; [intros f; by apply GetHash_lookup|]. split; [done|].
  intros Hnf. rewrite Hput. apply map_eq. intros f.
  rewrite lookup_union, GetHash_lookup by done.
  destruct (db !! encodeFieldKey k f) as [y|] eqn:E.
  - destruct Hnf. exists f. by rewrite E.
  - by destruct (hash !! f).
Qed.

Lemma GetHash_PutHash_witness :
  sepFree "k" /\
  GetHash (PutHash ∅ "k" Hash {["f" := "v"]}) "k" =
  ({["f" := "v"]} : gmap string string) ∪ GetHash ∅ "k".
Proof.
  split; [reflexivity|].
  apply (GetHash_PutHash ∅ "k" Hash {["f" := "v"]}). reflexivity.
Defined.

(** ** Increments *)

Lemma digit_range (c : ascii) (d : Z) : digit c = Some d -> 0 <= d <= 9.
Proof.
  unfold digit.
  destruct (Z.leb_spec 48 (Z.of_N (N_of_ascii c)));
    destruct (Z.leb_spec (Z.of_N (N_of_ascii c)) 57); simpl; intros [= <-]; lia.
Qed.

Lemma digits_nonneg (s : string) (acc n : Z) :
  0 <= acc -> digits s acc = Some n -> 0 <= n.
Proof.
  revert acc. induction s as [|c s IH]; intros acc Hacc; simpl.
  - intros [= <-]. done.
  - destruct (digit c) as [d|] eqn:E; [|done].
    apply digit_range in E. apply IH. lia.
Qed.

(** What [ParseInt] accepts lies in the [int64] range. *)
Lemma ParseInt_range (s : string) (z : Z) :
  ParseInt s = Some z -> min_int64 <= z <= max_int64.
Proof.
  unfold ParseInt, min_int64, max_int64. destruct s as [|c rest]; [done|].
  cbv zeta.
  set (b := if Ascii.eqb c "+" || Ascii.eqb c "-" then rest else String c rest).
  clearbody b. destruct b as [|c' body]; [done|].
  destruct (digits (String c' body) 0) as [un|] eqn:Ed; [|done].
  apply digits_nonneg in Ed; [|done].
  destruct (Ascii.eqb c "-").
  - destruct (Z.leb_spec un (2 ^ 63)); intros [= <-]; lia.
  - destruct (Z.ltb_spec un (2 ^ 63)); intros [= <-]; lia.
Qed.

Lemma put_put (db : Store) (k f x y : string) :
  <[encodeFieldKey k f := y]>
    (<[encodeMetaKey k := encodeMetadata Hash]>
       (<[encodeFieldKey k f := x]>
          (<[encodeMetaKey k := encodeMetadata Hash]> db))) =
  <[encodeFieldKey k f := y]> (<[encodeMetaKey k := encodeMetadata Hash]> db).
Proof.
  apply map_eq. intros i.
  destruct (decide (i = encodeFieldKey k f)) as [->|Hf];
    [by rewrite !lookup_insert_eq|].
  rewrite !(lookup_insert_ne _ (encodeFieldKey k f)) by done.
  destruct (decide (i = encodeMetaKey k)) as [->|Hm];
    [by rewrite !lookup_insert_eq|].
  by rewrite !lookup_insert_ne by done.
Qed.

(** X13: increments add up. On a key that is absent or of the hash type
    and a field without a non-empty value, [hincrby] by [a] and then by
    [b] replies [a] and then the 64-bit sum of [a] and [b], and leaves the
    very database that incrementing by [b] first and then by [a] leaves:
    the field holding the decimal string of that sum. *)
Theorem hincrby_adds_up (db : Store) (k f a b : string) (x y : Z) :
  wrongType (Has db k) = false ->
  ldb_get db (encodeFieldKey k f) = EmptyString ->
  ParseInt a = Some x -> ParseInt b = Some y ->
  exists db2,
    session [hincrby [k; f; a]; hincrby [k; f; b]] db =
      Some ([Integer x; Integer (wrap64 (x + y))], db2) /\
    session [hincrby [k; f; b]; hincrby [k; f; a]] db =
      Some ([Integer y; Integer (wrap64 (x + y))], db2) /\
    db2 !! encodeFieldKey k f = Some (FormatInt (wrap64 (x + y))) /\
    (min_int64 <= x + y <= max_int64 -> wrap64 (x + y) = x + y).
Proof.
  intros Hw Hcur Ha Hb.
  assert (forall c d u v, ParseInt c = Some u -> ParseInt d = Some v ->
    session [hincrby [k; f; c]; hincrby [k; f; d]] db =
    Some ([Integer u; Integer (wrap64 (u + v))],
          <[encodeFieldKey k f := FormatInt (wrap64 (u + v))]>
            (<[encodeMetaKey k := encodeMetadata Hash]> db))) as Hrun.
  { intros c d u v Hc Hd. unfold session.
    rewrite (hincrby_eq db k f c [] u Hc Hw). cbv zeta. rewrite Hcur.
    simpl len. simpl Nat.eqb. cbv beta iota.
    pose proof (ParseInt_range _ _ Hc) as Hu.
    rewrite (wrap64_small (0 + u)) by (by rewrite Z.add_0_l).
    rewrite Z.add_0_l.
    rewrite (hincrby_eq _ k f d [] v Hd) by apply wrongType_isHash, isHash_put.
    cbv zeta. rewrite ldb_get_insert_eq, (ParseInt_FormatInt u Hu).
    destruct (len (FormatInt u) =? 0)%nat eqn:E.
    - apply len_0 in E. pose proof (ParseInt_FormatInt u Hu) as Hp.
      rewrite E in Hp. done.
    - cbv beta iota. by rewrite put_put. }
  eexists. split; [by apply Hrun|]. split.
  - rewrite (Z.add_comm x y). by apply Hrun.
  - split; [apply lookup_insert_eq|apply wrap64_small].
Qed.

Lemma hincrby_adds_up_witness :
  exists db2,
    session [hincrby ["k"; "f"; "5"]; hincrby ["k"; "f"; "-2"]] ∅ =
      Some ([Integer 5; Integer (wrap64 (5 + -2))], db2) /\
    session [hincrby ["k"; "f"; "-2"]; hincrby ["k"; "f"; "5"]] ∅ =
      Some ([Integer (-2); Integer (wrap64 (5 + -2))], db2).
Proof.
  destruct (hincrby_adds_up ∅ "k" "f" "5" "-2" 5 (-2))
    as (db2 & H1 & H2 & _); [reflexivity..|].
  exists db2. split; [exact H1|exact H2].
Defined.

Section FloatIncrement.
Variable float64 : Type.
Variable ParseFloat : string -> option float64.
Variable fadd : float64 -> float64 -> float64.
Variable fzero : float64.
Variable FormatFloat : float64 -> string.

(** X14: when the increment parses and the key is absent or of the hash
    type, [hincrbyfloat] adds the increment to zero for a field without a
    non-empty value and to the parsed stored value otherwise, stores the
    printed sum under the field, marks the key as a hash and replies the
    very string it stored; every entry other than the field and the
    metadata of the key is left as it was. *)
Theorem hincrbyfloat_stores_reply (db : Store) (k f d : string) (by_ cur : float64) :
  ParseFloat d = Some by_ -> wrongType (Has db k) = false ->
  ldb_get db (encodeFieldKey k f) = EmptyString /\ cur = fzero \/
  ldb_get db (encodeFieldKey k f) <> EmptyString /\
  ParseFloat (ldb_get db (encodeFieldKey k f)) = Some cur ->
  exists db1,
    hincrbyfloat float64 ParseFloat fadd fzero FormatFloat [k; f; d] db =
      Some (BulkString (FormatFloat (fadd cur by_)), db1) /\
    db1 !! encodeFieldKey k f = Some (FormatFloat (fadd cur by_)) /\
    isHash db1 k /\
    (forall x, x <> encodeFieldKey k f -> x <> encodeMetaKey k ->
       db1 !! x = db !! x).
Proof.
  intros Hd Hw Hcur.
  exists (<[encodeFieldKey k f := FormatFloat (fadd cur by_)]>
            (<[encodeMetaKey k := encodeMetadata Hash]> db)).
  split; [|split; [apply lookup_insert_eq|split; [apply isHash_put|]]].
  - unfold hincrbyfloat. hsimpl. rewrite Hd. hsimpl.
    rewrite Hw, GetFields_one, lookup_singleton_eq. hsimpl.
    destruct Hcur as [[Hc ->]|[Hne Hc]].
    + rewrite Hc. simpl len. simpl Nat.eqb. cbv beta iota.
      by rewrite insert_singleton_eq, lookup_singleton_eq, PutHash_singleton.
    + destruct (len _ =? 0)%nat eqn:E; [by apply len_0 in E|]. rewrite Hc.
      by rewrite insert_singleton_eq, lookup_singleton_eq, PutHash_singleton.
  - intros x Hx Hm. by rewrite !lookup_insert_ne.
Qed.

End FloatIncrement.

Lemma hincrbyfloat_stores_reply_witness :
  exists db1,
    hincrbyfloat Z ParseInt Z.add 0 FormatInt ["k"; "f"; "7"] ∅ =
      Some (BulkString (FormatInt (0 + 7)), db1) /\
    db1 !! encodeFieldKey "k" "f" = Some (FormatInt (0 + 7)).
Proof.
  destruct (hincrbyfloat_stores_reply Z ParseInt Z.add 0 FormatInt
              ∅ "k" "f" "7" 7 0) as (db1 & H1 & H2 & _).
  - reflexivity.
  - reflexivity.
  - left. split; reflexivity.
  - exists db1. split; [exact H1|exact H2].
Defined.

(** ** Repeating and combining writes *)

Lemma foldl_fieldSet_union (pairs : list (string * string)) (m : gmap string string) :
  foldl (fun m p => <[p.1 := p.2]> m) m pairs = fieldSet pairs ∪ m.
Proof.
  unfold fieldSet. induction pairs as [|p pairs IH] using rev_ind.
  - simpl. symmetry. apply (left_id ∅ (∪)).
  - rewrite !foldl_app. simpl. by rewrite IH, insert_union_l.
Qed.

Lemma fieldSet_app (p1 p2 : list (string * string)) :
  fieldSet (p1 ++ p2)%list = fieldSet p2 ∪ fieldSet p1.
Proof. unfold fieldSet at 1. by rewrite foldl_app, foldl_fieldSet_union. Qed.

Lemma PutHash_PutHash (db : Store) (k : string) (t : ascii)
    (h1 h2 : gmap string string) :
  PutHash (PutHash db k t h1) k t h2 = PutHash db k t (h2 ∪ h1).
Proof.
  apply map_eq. intros x.
  destruct (decide (x = encodeMetaKey k)) as [->|Hm];
    [by rewrite !lookup_PutHash_meta|].
  rewrite !PutHash_union, kmap_union by apply _.
  repeat (rewrite lookup_union || rewrite lookup_insert_ne by done).
  destruct (kmap (encodeFieldKey k) h2 !! x), (kmap (encodeFieldKey k) h1 !! x),
    (db !! x); done.
Qed.

(** X15: two [hmset] on one key, which is absent or of the hash type,
    leave the database that the single [hmset] of the first pairs
    followed by the second pairs leaves: the later value of a field
    wins. In particular running the same [hmset] twice leaves the
    database the first run left. *)
Theorem hmset_twice (db : Store) (k : string) (p1 p2 : list (string * string)) :
  wrongType (Has db k) = false -> p1 <> [] -> p2 <> [] ->
  exists db2,
    session [hmset (k :: flatten p1); hmset (k :: flatten p2)] db =
      Some ([OkSimpleString; OkSimpleString], db2) /\
    hmset (k :: flatten (p1 ++ p2)%list) db = Some (OkSimpleString, db2) /\
    (p1 = p2 -> hmset (k :: flatten p1) db = Some (OkSimpleString, db2)).
Proof.
  intros Hw H1 H2. exists (PutHash db k Hash (fieldSet (p1 ++ p2)%list)).
  assert ((p1 ++ p2)%list <> []) as H12 by (destruct p1; done).
  split; [|split].
  - unfold session. rewrite hmset_eq, Hw by done. cbv beta iota.
    rewrite hmset_eq by done.
    rewrite (wrongType_isHash _ k) by apply Has_PutHash. cbv beta iota.
    by rewrite PutHash_PutHash, fieldSet_app.
  - by rewrite hmset_eq, Hw.
  - intros <-. rewrite hmset_eq, Hw by done. do 2 f_equal.
    rewrite fieldSet_app. f_equal. symmetry. apply (idemp_L (∪)).
Qed.

Lemma hmset_twice_witness :
  exists db2,
    session [hmset ("k" :: flatten [("f", "v")]);
             hmset ("k" :: flatten [("f", "w"); ("g", "x")])] ∅ =
      Some ([OkSimpleString; OkSimpleString], db2) /\
    hmset ("k" :: flatten ([("f", "v")] ++ [("f", "w"); ("g", "x")])%list) ∅ =
      Some (OkSimpleString, db2).
Proof.
  destruct (hmset_twice ∅ "k" [("f", "v")] [("f", "w"); ("g", "x")])
    as (db2 & H1 & H2 & _); [reflexivity|done|done|].
  exists db2. split; [exact H1|exact H2].
Defined.

Lemma ldb_delete_absent (db : Store) (keys : list string) :
  (forall x, x ∈ keys -> db !! x = None) -> ldb_delete db keys = db.
Proof.
  intros H. apply map_eq. intros x. rewrite lookup_ldb_delete.
  case_decide as Hin; [|done]. symmetry. by apply H.
Qed.

(** X16: [hdel] repeated with the same fields finds nothing more to
    delete: after an [hdel] on a key of the hash type the same [hdel]
    replies 0 and leaves the database as the first one left it. *)
Theorem hdel_twice (db : Store) (k : string) (fields : list string) :
  isHash db k -> fields <> [] ->
  exists n db1,
    hdel (k :: fields) db = Some (Integer n, db1) /\
    hdel (k :: fields) db1 = Some (ZeroInteger, db1).
Proof.
  intros Hh Hf. eexists _, _. split; [by apply hdel_hash_eq|].
  set (db1 := DeleteFields db k fields).
  assert (forall f, f ∈ fields -> db1 !! encodeFieldKey k f = None) as Hgone.
  { intros f Hin. unfold db1. by rewrite lookup_DeleteFields_field, decide_True. }
  destruct (absent_or_present db1 k) as [Ha|[t Ht]].
  - unfold hdel. destruct fields as [|f fields]; [done|]. hsimpl.
    unfold absent in Ha. by rewrite Ha.
  - assert (isHash db1 k) as Hh1.
    { destruct (DeleteFields_cases db k fields) as [[_ E]|[Hy E]]; fold db1 in E.
      - unfold Has in Ht. rewrite E, lookup_delete_eq in Ht. done.
      - apply (DeleteFields_isHash db k fields Hh). by rewrite <- E in Hy. }
    rewrite hdel_hash_eq by done.
    assert (nonEmptyFields db1 k fields = []) as ->.
    { unfold nonEmptyFields.
      assert (forall f, f ∈ remove_dups fields -> f ∈ fields) as Hsub
        by (intros f; by rewrite elem_of_remove_dups).
      induction (remove_dups fields) as [|f l IH]; [done|].
      rewrite filter_cons, decide_False.
      - apply IH. intros g Hg. apply Hsub. by right.
      - unfold ldb_get. rewrite (Hgone f) by (apply Hsub; left).
        intros H. by apply H. }
    assert (ldb_delete db1 (encodeFieldKey k <$> fields) = db1) as Hsame.
    { apply ldb_delete_absent. intros x (f & -> & Hin)%list_elem_of_fmap. auto. }
    do 2 f_equal.
    destruct (DeleteFields_cases db1 k fields) as [[Hn _]|[_ ->]]; [|done].
    rewrite Hsame in Hn. destruct Hn. by apply (DeleteFields_isHash db k fields Hh).
Qed.

Lemma hdel_twice_witness :
  let db := <[encodeFieldKey "k" "g" := "w"%string]>
              (<[encodeFieldKey "k" "f" := "v"%string]>
                 (<[encodeMetaKey "k" := encodeMetadata Hash]> (∅ : Store))) in
  isHash db "k" /\
  exists n db1,
    hdel ["k"; "f"] db = Some (Integer n, db1) /\
    hdel ["k"; "f"] db1 = Some (ZeroInteger, db1).
Proof.
  intros db. split; [reflexivity|].
  apply (hdel_twice db "k" ["f"]); [reflexivity|done].
Defined.

(** ** The order of the enumeration *)

Lemma ascii_compare_refl (c : ascii) : Ascii.compare c c = Eq.
Proof.
  pose proof (Ascii.compare_antisym c c) as H.
  destruct (Ascii.compare c c); simpl in H; congruence.
Qed.

Lemma leb_append (p a b : string) :
  String.leb (p +:+ a) (p +:+ b) = String.leb a b.
Proof.
  induction p as [|c p IH]; [done|]. rewrite !append_String.
  unfold String.leb in *. cbn [String.compare]. by rewrite ascii_compare_refl.
Qed.

Lemma leb_encodeFieldKey (k f g : string) :
  String.leb (encodeFieldKey k f) (encodeFieldKey k g) = String.leb f g.
Proof.
  unfold encodeFieldKey.
  rewrite <- (append_assoc_sep k f Seperator), <- (append_assoc_sep k g Seperator).
  rewrite <- (append_String ValuePrefix _ f), <- (append_String ValuePrefix _ g).
  apply leb_append.
Qed.

Lemma Sorted_fmap_on {A B : Type} (R : relation A) (R' : relation B) (P : A -> Prop)
    (g : A -> B) (l : list A) :
  (forall x y, P x -> P y -> R x y -> R' (g x) (g y)) ->
  Forall P l -> Sorted R l -> Sorted R' (g <$> l).
Proof.
  intros Hg HP Hs. induction Hs as [|x l Hs IH Hhd]; [constructor|].
  apply Forall_cons in HP as [Hx HP]. rewrite fmap_cons.
  constructor; [by apply IH|].
  destruct Hhd as [|y l' Hxy]; [constructor|]. rewrite fmap_cons. constructor.
  apply Forall_cons in HP as [Hy _]. by apply Hg.
Qed.

(** X17: for a record key without separator byte the enumeration comes in
    ascending byte order of the field names, whatever the order in which
    the fields were written: [GetFieldNames], and with it the reply of
    [hkeys] on a key of the hash type, is sorted. *)
Theorem hkeys_in_byte_order (db : Store) (k : string) :
  sepFree k ->
  Sorted Bytes.le (GetFieldNames db k) /\
  (isHash db k ->
   hkeys [k] db = Some (Array (BulkString <$> GetFieldNames db k), db)).
Proof.
  intros Hk. split.
  - unfold GetFieldNames.
    apply (Sorted_fmap_on entry_le Bytes.le
             (fun e => exists f, e.1 = encodeFieldKey k f)).
    + intros [a x] [b y] [f Hf] [g Hg]. simpl in *. subst a b.
      unfold entry_le, Bytes.le. simpl.
      by rewrite leb_encodeFieldKey, !fieldOf_encode.
    + apply Forall_forall. intros [a x] [_ Hp]%elem_of_Iterator.
      by apply HasPrefix_field in Hp.
    + apply Iterator_Sorted.
  - intros Hh. unfold hkeys. hsimpl. rewrite (wrongType_isHash _ _ Hh), Hh.
    hsimpl. by rewrite (foldl_snoc_fmap BulkString).
Qed.

Lemma hkeys_in_byte_order_witness :
  sepFree "k" /\
  exists db1,
    session [hmset ["k"; "b"; "1"; "a"; "2"]] ∅ = Some ([OkSimpleString], db1) /\
    Sorted Bytes.le (GetFieldNames db1 "k") /\
    GetFieldNames db1 "k" = ["a"; "b"].
Proof.
  split; [reflexivity|]. eexists. split; [reflexivity|].
  split; [|vm_compute; reflexivity].
  apply hkeys_in_byte_order. reflexivity.
Defined.

(** ** Errors, point reads and reachable databases *)

Section Errors.
Variable float64 : Type.
Variable ParseFloat : string -> option float64.
Variable fadd : float64 -> float64 -> float64.
Variable fzero : float64.
Variable FormatFloat : float64 -> string.

Local Abbreviation handle := (handler float64 ParseFloat fadd fzero FormatFloat).

(** X18: a handler that replies an error has written nothing: whatever
    the command, the arguments and the error (wrong number of arguments,
    wrong type, not an integer, not a float), the database is the one the
    handler was given. *)
Theorem error_replies_write_nothing (c : Cmd) (v : Args) (db db' : Store)
    (e : Error) :
  handle c v db = Some (NewError e, db') -> db' = db.
Proof.
  destruct c; simpl;
    destruct v as [|k [|f [|d rest]]];
    unfold hdel, hexists, hget, hgetall, hincrby, hincrbyfloat, hkeys,
      hlen, hmget, hmset, hset, hsetnx, hstrlen, hvals; hsimpl;
    repeat case_match; intros; simplify_eq; try done;
    repeat match goal with
           | H : context [mbind _ ?o] |- _ => destruct o eqn:?; simplify_eq/=
           end; done.
Qed.

(** X19: every database a session of handlers reaches from the empty
    database, the record key of each command free of the separator byte,
    is consistent: a separator-free key is marked as a hash exactly when
    the store holds a field entry of it. *)
Theorem reachable_metaConsistent (cmds : list (Cmd * Args)) (db : Store)
    (rs : list Reply) :
  Forall (fun cv => forall k, cv.2 !! 0%nat = Some k -> sepFree k) cmds ->
  session ((fun cv => handle cv.1 cv.2) <$> cmds) ∅ = Some (rs, db) ->
  metaConsistent db.
Proof.
  intros Hall Hrun.
  eapply (session_metaConsistent float64 ParseFloat fadd fzero FormatFloat);
    [|exact Hrun|].
  - apply Forall_fmap. eapply Forall_impl; [exact Hall|].
    intros [c v] Hk. exists c, v. split; [done|exact Hk].
  - intros k _. apply metaConsistentAll_empty.
Qed.

End Errors.

Lemma error_replies_write_nothing_witness :
  let db := <[encodeMetaKey "k" := "s"%string]> (∅ : Store) in
  handler Z ParseInt Z.add 0 FormatInt HSET ["k"; "f"; "v"] db =
    Some (NewError ErrWrongType, db) /\ db = db.
Proof.
  intros db.
  assert (handler Z ParseInt Z.add 0 FormatInt HSET ["k"; "f"; "v"] db =
          Some (NewError ErrWrongType, db)) as H by (vm_compute; reflexivity).
  split; [exact H|].
  exact (error_replies_write_nothing Z ParseInt Z.add 0 FormatInt HSET
           ["k"; "f"; "v"] db db ErrWrongType H).
Defined.

Lemma reachable_metaConsistent_witness :
  exists db,
    session ((fun cv => handler Z ParseInt Z.add 0 FormatInt cv.1 cv.2) <$>
               [(HSET, ["k"; "f"; "v"]); (HDEL, ["k"; "f"])]) ∅ =
      Some ([OneInteger; Integer 1], db) /\
    metaConsistent db.
Proof.
  eexists. split; [reflexivity|].
  apply (reachable_metaConsistent Z ParseInt Z.add 0 FormatInt
           [(HSET, ["k"; "f"; "v"]); (HDEL, ["k"; "f"])] _ [OneInteger; Integer 1]).
  - repeat constructor; intros k [= <-]; reflexivity.
  - reflexivity.
Defined.

(** X20: the point readers agree on a key of the hash type: for the
    stored value [x] of the field (empty when there is none) [hstrlen]
    replies the length of [x], [hexists] replies 1 exactly when [x] is
    non-empty, and [hget] and the one-field [hmget] reply [x] then and
    the nil bulk string otherwise. *)
Theorem point_reads_agree (db : Store) (k f : string) :
  isHash db k ->
  let x := ldb_get db (encodeFieldKey k f) in
  hstrlen [k; f] db = Some (Integer (Z.of_nat (String.length x)), db) /\
  hexists [k; f] db =
    Some (if decide (x = EmptyString) then ZeroInteger else OneInteger, db) /\
  hget [k; f] db = Some (bulkOrNil x, db) /\
  hmget [k; f] db = Some (Array [bulkOrNil x], db).
Proof.
  intros Hh x. pose proof (wrongType_isHash _ _ Hh) as Hw.
  rewrite hstrlen_eq, hexists_eq, hget_eq, (hmget_eq db k [f]) by done.
  fold x. unfold bulkOrNil. repeat split.
  do 2 f_equal. destruct (len x =? 0)%nat eqn:E.
  - apply len_0 in E. by rewrite decide_True.
  - rewrite decide_False; [done|]. intros H. apply len_0 in H. congruence.
Qed.

Lemma point_reads_agree_witness :
  let db := <[encodeFieldKey "k" "f" := "v"%string]>
              (<[encodeMetaKey "k" := encodeMetadata Hash]> (∅ : Store)) in
  isHash db "k" /\
  hget ["k"; "f"] db = Some (bulkOrNil (ldb_get db (encodeFieldKey "k" "f")), db).
Proof.
  intros db. split; [reflexivity|].
  apply (point_reads_agree db "k" "f"). reflexivity.
Defined.
